(** * Paint-shop colouring: the greedy heuristics, the quadratic objective
      and the QUBO key emission of the notebook, with their properties. *)

From Stdlib Require Import ZArith List Lia Ascii String.
From stdpp Require Import gmap strings list fin_maps pretty.

Local Open Scope Z_scope.

(** ** Data model *)

(** The two colour names used as keys of [colors] and as labels in [result]. *)
Inductive color : Set := white | black.

Global Instance color_eq_dec : EqDecision color.
Proof. solve_decision. Defined.

(** [if current_color == "white": current_color = "black" else: ... "white"] *)
Definition flip (c : color) : color :=
  match c with white => black | black => white end.

(** The only exception the passes can raise: a dictionary lookup of a
    missing car type. *)
Inductive exn : Set := KeyError (k : string).

(** A small error monad for the code that can raise. *)
Definition M (A : Type) : Type := exn + A.
Definition ret {A} (a : A) : M A := inr a.
Definition raise {A} (e : exn) : M A := inl e.
Definition bind {A B} (m : M A) (k : A → M B) : M B :=
  match m with inl e => inl e | inr a => k a end.
Notation "x ←! m ; k" := (bind m (fun x => k))
  (at level 20, m at level 100, k at level 200, right associativity,
   format "x  ←!  m ;  '/' k").

(** [d[k]] on a Python dict. *)
Definition getitem {V} (d : gmap string V) (k : string) : M V :=
  match d !! k with Some v => ret v | None => raise (KeyError k) end.

(** [sequence.count(t)] *)
Definition count (t : string) (sequence : list string) : Z :=
  Z.of_nat (length (filter (λ s, s = t) sequence)).

(** [set(sequence)] *)
Definition types_of (sequence : list string) : gset string :=
  list_to_set sequence.

(** ** The binary heuristic (every type twice, sets of painted types) *)

Module Binary.

(** [colors = {"white": set(), "black": set()}], [result], [changes]
    and [current_color], threaded through the loop. *)
Record state : Type := State {
  colors : color → gset string;
  result : list color;
  changes : Z;
  current_color : color
}.

Definition init : state :=
  State (λ _, ∅) [] 0 white.

(** [colors_dict[color].add(car_type); result_list.append(color)] *)
Definition paint_car (st : state) (c : color) (car_type : string) : state :=
  State (λ c', if decide (c' = c) then {[car_type]} ∪ colors st c'
               else colors st c')
        (result st ++ [c]) (changes st) (current_color st).

(** One iteration of [for car in sequence]. *)
Definition step (st : state) (car : string) : state :=
  if decide (car ∈ colors st (current_color st)) then
    let st1 := State (colors st) (result st) (changes st + 1)
                     (flip (current_color st)) in
    paint_car st1 (current_color st1) car
  else paint_car st (current_color st) car.

Definition run (st : state) (sequence : list string) : state :=
  foldl step st sequence.

Definition heuristic (sequence : list string) : state := run init sequence.

End Binary.

(** ** The multi-demand heuristic (remaining-capacity counters) *)

Module Multi.

(** [colors = {"white": dict(demand_white), "black": dict(demand_black)}] *)
Record state : Type := State {
  colors : color → gmap string Z;
  result : list color;
  changes : Z;
  current_color : color
}.

(** The dictionary of a colour in
    [{"white": dict(demand_white), "black": dict(demand_black)}]. *)
Definition demand_of (demand_white demand_black : gmap string Z)
    (c : color) : gmap string Z :=
  match c with white => demand_white | black => demand_black end.

Definition init (demand_white demand_black : gmap string Z) : state :=
  State (demand_of demand_white demand_black) [] 0 white.

(** [colors_dict[color][car_type] -= 1; result_list.append(color)] *)
Definition paint_car (st : state) (c : color) (car_type : string) : M state :=
  v ←! getitem (colors st c) car_type;
  ret (State (λ c', if decide (c' = c) then <[car_type := v - 1]> (colors st c')
                    else colors st c')
             (result st ++ [c]) (changes st) (current_color st)).

(** One iteration of [for car in sequence]. *)
Definition step (st : state) (car : string) : M state :=
  v ←! getitem (colors st (current_color st)) car;
  if decide (v > 0) then paint_car st (current_color st) car
  else
    let st1 := State (colors st) (result st) (changes st + 1)
                     (flip (current_color st)) in
    paint_car st1 (current_color st1) car.

Fixpoint run (st : state) (sequence : list string) : M state :=
  match sequence with
  | [] => ret st
  | car :: rest => st' ←! step st car; run st' rest
  end.

Definition heuristic (sequence : list string)
    (demand_white demand_black : gmap string Z) : M state :=
  run (init demand_white demand_black) sequence.

End Multi.

(** The sequence of the first data cell. *)
Definition sequence12 : list string :=
  ["A"; "D"; "E"; "B"; "A"; "F"; "C"; "B"; "C"; "D"; "E"; "F"]%string.

(** ** Demand *)

(** [{t: sequence.count(t) - d[t] for t in types}]: the dict comprehension
    that derives one colour's demand from the other's. *)
Definition complement_demand (sequence : list string) (d : gmap string Z)
    : gmap string Z :=
  map_imap (λ t v, Some (count t sequence - v)) d.

(** A black demand is feasible for a sequence when its types are those of
    the sequence and each count lies between 0 and the occurrences. *)
Definition feasible_demand (sequence : list string) (demand_black : gmap string Z)
    : Prop :=
  dom demand_black = types_of sequence ∧
  map_Forall (λ t b, 0 ≤ b ≤ count t sequence) demand_black.

Global Instance feasible_demand_dec sequence demand_black :
  Decision (feasible_demand sequence demand_black).
Proof. unfold feasible_demand. apply _. Defined.

(** The implicit demand of the binary problem: one car of each type. *)
Definition binary_demand (sequence : list string) : gmap string Z :=
  gset_to_gmap 1 (types_of sequence).

Definition every_type_twice (sequence : list string) : Prop :=
  Forall (λ t, count t sequence = 2) sequence.

Global Instance every_type_twice_dec sequence :
  Decision (every_type_twice sequence).
Proof. unfold every_type_twice. apply _. Defined.

(** ** Colourings and their evaluation *)

(** Number of positions of type [t] that carry colour [c]. *)
Definition painted (sequence : list string) (coloring : list color)
    (t : string) (c : color) : Z :=
  Z.of_nat (length (filter (λ p, p.1 = t ∧ p.2 = c) (zip sequence coloring))).

(** A colouring meets a demand when it labels every position and paints,
    of every type in the demand, the demanded number in each colour. *)
Definition meets_demand (sequence : list string)
    (demand_white demand_black : gmap string Z) (coloring : list color) : Prop :=
  length coloring = length sequence ∧
  map_Forall (λ t w, painted sequence coloring t white = w) demand_white ∧
  map_Forall (λ t b, painted sequence coloring t black = b) demand_black.

Global Instance meets_demand_dec sequence dw db coloring :
  Decision (meets_demand sequence dw db coloring).
Proof. unfold meets_demand. apply _. Defined.

(** The switch-count evaluator, in the words of its contract: the number
    of positions [p] in [1..n-1] with [assignment[p] != assignment[p-1]]. *)
Definition switches {A} `{EqDecision A} (assignment : list A) : Z :=
  Z.of_nat (length (filter (λ p, assignment !! p ≠ assignment !! (p - 1)%nat)
                           (seq 1 (length assignment - 1)))).

(** The same count by recursion on the list. *)
Fixpoint switches_rec {A} `{EqDecision A} (assignment : list A) : Z :=
  match assignment with
  | x :: (y :: _) as tl => (if decide (x = y) then 0 else 1) + switches_rec tl
  | _ => 0
  end.

(** All colourings of [n] positions. *)
Fixpoint all_colorings (n : nat) : list (list color) :=
  match n with
  | O => [[]]
  | S n => r ← all_colorings n; [white :: r; black :: r]
  end.

(** The minimum switch count over the colourings that meet the demand,
    by exhaustive search; [None] when no colouring meets it. *)
Definition min_switches (sequence : list string)
    (demand_white demand_black : gmap string Z) : option Z :=
  match switches <$> filter (meets_demand sequence demand_white demand_black)
                            (all_colorings (length sequence)) with
  | [] => None
  | x :: l => Some (foldr Z.min x l)
  end.

(** ** Invariants of the passes *)

Module BinaryInv.
Import Binary.

(** What holds of the state after the cars of [pre] were painted. *)
Record inv (pre : list string) (st : state) : Prop := Inv {
  inv_length : length (result st) = length pre;
  inv_colors : ∀ t c, t ∈ colors st c ↔ 0 < painted pre (result st) t c;
  inv_current : current_color st = default white (last (result st));
  inv_changes : changes st = switches (result st);
  inv_once : ∀ t c, count t pre ≤ 2 → painted pre (result st) t c ≤ 1
}.

End BinaryInv.

Module MultiInv.
Import Multi.

Section Demand.
(** The demands the counters were initialised from. *)
Variable demand : color → gmap string Z.

(** What holds of the state after the cars of [pre] were painted:
    each counter is its demand less the cars painted so far. *)
Record inv (pre : list string) (st : state) : Prop := Inv {
  inv_length : length (result st) = length pre;
  inv_colors : ∀ c t,
    colors st c !! t =
    (λ v, v - painted pre (result st) t c) <$> demand c !! t;
  inv_current : current_color st = default white (last (result st));
  inv_changes :
    changes st =
    switches (result st) +
    (if decide (head (result st) = Some black) then 1 else 0)
}.

(** No colour is painted more often than demanded. *)
Definition within_demand (pre : list string) (st : state) : Prop :=
  ∀ c t d, demand c !! t = Some d → painted pre (result st) t c ≤ d.
End Demand.

End MultiInv.

(** ** The exact formulation *)

(** [records=[(i + 1, sequence[i]) for i in range(len(sequence))]] *)
Definition IJ_records (sequence : list string) : list (nat * string) :=
  imap (λ i car, (S i, car)) sequence.

(** The level of [X] at the element of ordinal [k] (ordinals start at 1). *)
Definition X_at (X : list Z) (k : nat) : Z := default 0 (X !! (k - 1)%nat).

Definition sqr (z : Z) : Z := z * z.

(** [obj = gp.Sum(i.where[gp.Ord(i) < gp.Card(i)], sqr(X[i] - X[i + 1]))] *)
Definition obj (X : list Z) : Z :=
  foldr Z.add 0
    ((λ k, sqr (X_at X k - X_at X (k + 1))) <$>
     filter (λ k, (k < length X)%nat) (seq 1 (length X))).

(** The objective by recursion on the list of levels. *)
Fixpoint obj_rec (X : list Z) : Z :=
  match X with
  | x :: (y :: _) as tl => sqr (x - y) + obj_rec tl
  | _ => 0
  end.

(** What the declarations of the modelling cell can raise: a car type
    that the modelling library refuses as a label. *)
Inductive build_exn : Set := LabelError.

(** The declarative structure assembled by the modelling cell: the records
    of [IJ] and the domains [i] and [j] forwarded from them. *)
Record ConstraintSystem : Type := {
  IJ : list (nat * string);
  i_set : list nat;
  j_set : gset string
}.

Section Container.

(** How the modelling library treats the car types it is given as labels
    of [j]: [canon t] is the element of [j] that the name [t] denotes
    (names the library does not tell apart denote one element), and
    [valid_label t] tells whether the library accepts the name at all.
    Both belong to the library, not to the notebook, and are left open. *)
Variable canon : string → string.
Variable valid_label : string → bool.

(** [IJ = gp.Set(m, "IJ", domain=[i, j], records=[...],
    domain_forwarding=True)]: the notebook makes no test of its own on
    the sequence. *)
Definition build (sequence : list string) : build_exn + ConstraintSystem :=
  if forallb valid_label sequence then
    inr {| IJ := IJ_records sequence;
           i_set := (IJ_records sequence).*1;
           j_set := list_to_set (canon <$> (IJ_records sequence).*2) |}
  else inl LabelError.

(** [gp.Sum(IJ[i, j], X[i])] for a fixed element [j]. *)
Definition type_sum (records : list (nat * string)) (X : list Z) (j : string)
    : Z :=
  foldr Z.add 0 ((λ r, X_at X r.1) <$> filter (λ r, canon r.2 = j) records).

(** [BlackOnce[j] = gp.Sum(IJ[i, j], X[i]) == 1], one equation per element
    of [j]. *)
Definition BlackOnce (cs : ConstraintSystem) (X : list Z) : Prop :=
  set_Forall (λ j, type_sum (IJ cs) X j = 1) (j_set cs).

End Container.

(** The binary level of a colour: 1 denotes black. *)
Definition level (c : color) : Z :=
  match c with white => 0 | black => 1 end.

(** ** Emission of the QUBO coefficients *)

Section Qubo.

(** The coefficient type and the matrix [qubo_matrix] of shape [n × n]. *)
Context {V : Type}.
Variable qubo_matrix : nat → nat → V.

(** [np.triu_indices(n)]: the upper triangle, row by row. *)
Definition triu_indices (n : nat) : list (nat * nat) :=
  r ← seq 0 n; c ← seq r (n - r); [(r, c)].

(** [f"({r},)"] and [f"({r},{c})"] *)
Definition key (r c : nat) : string :=
  if decide (r = c) then "(" +:+ pretty r +:+ ",)"
  else "(" +:+ pretty r +:+ "," +:+ pretty c +:+ ")".

(** The loop filling [final_qubo]. *)
Definition final_qubo (n : nat) : gmap string V :=
  foldl (λ d rc, <[key rc.1 rc.2 := qubo_matrix rc.1 rc.2]> d) ∅
        (triu_indices n).

End Qubo.

(** The character [a] does not occur in [s]. *)
Fixpoint char_free (a : ascii) (s : string) : Prop :=
  match s with
  | EmptyString => True
  | String b s => b ≠ a ∧ char_free a s
  end.

(** ** The demand model of the specification *)

(** Modelled from the spec: the error kinds of the demand model, which the
    notebook does not declare. *)
Inductive DemandError : Set := Infeasible | ExhaustedCapacity.

(** Modelled from the spec: [validate], the demand check, which the
    notebook does not contain (it draws [demand_white] within range and
    derives [demand_black] as the complement). It fails with [Infeasible]
    when a black count is negative or exceeds the occurrence count of its
    type, or when the types of demand and instance differ; otherwise it
    returns the pairs (white count, black count), white being the
    complement. *)
Definition validate (instance : list string) (demand : gmap string Z)
    : DemandError + gmap string (Z * Z) :=
  if decide (feasible_demand instance demand)
  then inr (map_imap (λ t b, Some (count t instance - b, b)) demand)
  else inl Infeasible.

(** Every type seen at least twice has a car of each colour. *)
Definition both_colors (pre : list string) (st : Binary.state) : Prop :=
  ∀ t c, 2 ≤ count t pre → 1 ≤ painted pre (Binary.result st) t c.

(** ** The binary model *)

(** The assignment with the two colours exchanged. *)
Definition swap_levels (X : list Z) : list Z := (λ x, 1 - x) <$> X.

(** ** Display of a coloured sequence *)

Module Display.

(** The ANSI colour codes. *)
Definition RED : string := String (ascii_of_nat 27) "[91m".
Definition BLUE : string := String (ascii_of_nat 27) "[94m".
Definition RESET : string := String (ascii_of_nat 27) "[0m".

(** What [display_colored_sequence] can raise: an index without an entry
    in [color_data], a level that is no key of [color_map], and the
    subtraction [1 - color_data[0]] on a label. *)
Inductive exn : Set :=
| LookupError (i : nat)
| LevelKeyError (v : Z)
| TypeError.

(** [color_data]: the levels of [X] for the optimisation, the labels of
    [result] for the heuristic. *)
Inductive color_data : Type :=
| Levels (levels : list Z)
| Labels (labels : list color).

(** [color_data[i]] *)
Definition data_at (d : color_data) (i : nat) : exn + (Z + color) :=
  match d with
  | Levels l =>
      match l !! i with Some v => inr (inl v) | None => inl (LookupError i) end
  | Labels l =>
      match l !! i with Some c => inr (inr c) | None => inl (LookupError i) end
  end.

(** [str.lower] on the letters A to Z; no other character becomes a letter
    of the two method names. *)
Definition lower_char (a : ascii) : ascii :=
  let n := nat_of_ascii a in
  if (65 <=? n)%nat && (n <=? 90)%nat then ascii_of_nat (n + 32) else a.

Fixpoint lower (s : string) : string :=
  match s with
  | EmptyString => EmptyString
  | String a s => String (lower_char a) (lower s)
  end.

(** [for i, char in enumerate(sequence)], each iteration appending to
    [colored_output]; an exception leaves the loop. *)
Fixpoint loop (body : nat → string → exn + list string) (i : nat)
    (sequence : list string) : exn + list string :=
  match sequence with
  | [] => inr []
  | char :: rest =>
      match body i char with
      | inl e => inl e
      | inr out =>
          match loop body (S i) rest with
          | inl e => inl e
          | inr outs => inr (out ++ outs)
          end
      end
  end.

(** [{color_data[0]: RED, 1 - color_data[0]: BLUE}] *)
Definition color_map (d : color_data) : exn + gmap Z string :=
  match data_at d 0 with
  | inl e => inl e
  | inr (inl v0) => inr (<[1 - v0 := BLUE]> {[v0 := RED]})
  | inr (inr _) => inl TypeError
  end.

(** The body of the loop of the optimisation branch. *)
Definition optimization_body (d : color_data) (m : gmap Z string)
    (i : nat) (char : string) : exn + list string :=
  match data_at d i with
  | inl e => inl e
  | inr (inl v) =>
      match m !! v with
      | Some code => inr [code; char]
      | None => inl (LevelKeyError v)
      end
  | inr (inr _) => inl TypeError
  end.

(** The body of the loop of the heuristic branch:
    [color = RED if color_data[i] == "white" else BLUE]. *)
Definition heuristic_body (d : color_data) (i : nat) (char : string)
    : exn + list string :=
  match data_at d i with
  | inl e => inl e
  | inr (inr white) => inr [RED; char]
  | inr _ => inr [BLUE; char]
  end.

(** [colored_output] when the function reaches [print]. *)
Definition colored_output (method : string) (sequence : list string)
    (d : color_data) : exn + list string :=
  if decide (lower method = "optimization") then
    match color_map d with
    | inl e => inl e
    | inr m =>
        match loop (optimization_body d m) 0 sequence with
        | inl e => inl e
        | inr out => inr (out ++ [RESET])
        end
    end
  else if decide (lower method = "heuristic") then
    match loop (heuristic_body d) 0 sequence with
    | inl e => inl e
    | inr out => inr (out ++ [RESET])
    end
  else inr [RESET].

(** [display_colored_sequence]: the line it prints. *)
Definition display_colored_sequence (method : string)
    (sequence : list string) (d : color_data) : exn + string :=
  match colored_output method sequence d with
  | inl e => inl e
  | inr out =>
      inr ("The coloring sequence is:" +:+ " " +:+
           foldr String.append "" out +:+ String (ascii_of_nat 10) "")
  end.

End Display.

(** The colour code of a label and the entries the loop appends for a
    sequence labelled position by position. *)
Definition paint_code (c : color) : string :=
  match c with white => Display.RED | black => Display.BLUE end.

Definition rendered (sequence : list string) (labels : list color)
    : list string :=
  mjoin (zip_with (λ char c, [paint_code c; char]) sequence labels).

(** The printed line for the entries of [colored_output]. *)
Definition printed (out : list string) : string :=
  "The coloring sequence is:" +:+ " " +:+
  foldr String.append "" out +:+ String (ascii_of_nat 10) "".

(** * Properties *)

(** ** Lists: filters and sums *)

Section ListFacts.
Context {A B : Type}.

Lemma filter_fmap_comp (f : A → B) (P : B → Prop) `{!∀ x, Decision (P x)}
    (l : list A) :
  filter P (f <$> l) = f <$> filter (P ∘ f) l.
Proof.
  induction l as [|x l IH]; [done|].
  rewrite fmap_cons, !filter_cons. unfold compose at 1.
  case_decide; rewrite IH; done.
Qed.

Lemma filter_ext_elem (P Q : A → Prop) `{!∀ x, Decision (P x)}
    `{!∀ x, Decision (Q x)} (l : list A) :
  (∀ x, x ∈ l → P x ↔ Q x) → filter P l = filter Q l.
Proof.
  induction l as [|x l IH]; intros Hext; [done|].
  rewrite !filter_cons.
  assert (Hx : P x ↔ Q x) by (apply Hext; left).
  rewrite IH by (intros; apply Hext; by right).
  repeat case_decide; tauto.
Qed.
End ListFacts.

(** ** The switch count and the quadratic objective *)

Section Switches.
Context {A : Type} `{EqDecision A}.
Implicit Types (a : list A) (x y : A).

Lemma switches_cons2 x y a :
  switches (x :: y :: a) =
  (if decide (x = y) then 0 else 1) + switches (y :: a).
Proof.
  unfold switches. cbn [length]. rewrite !Nat.sub_succ, !Nat.sub_0_r.
  cbn [seq]. rewrite filter_cons, <- fmap_S_seq, filter_fmap_comp.
  rewrite (filter_ext_elem (_ ∘ S)
    (λ p, (y :: a) !! p ≠ (y :: a) !! (p - 1)%nat)).
  - cbn [lookup list_lookup Nat.sub].
    repeat case_decide; cbn [length]; rewrite length_fmap;
      try lia; congruence.
  - intros p [Hp _]%elem_of_seq. unfold compose.
    destruct p as [|p]; [lia|].
    replace (S (S p) - 1)%nat with (S (S p - 1)) by lia. done.
Qed.

Lemma switches_rec_eq a : switches a = switches_rec a.
Proof.
  induction a as [|x [|y a] IH]; [done..|].
  rewrite switches_cons2, IH. done.
Qed.

(** Appending one label adds a switch exactly when it differs from the
    last one. *)
Lemma switches_rec_snoc a x :
  switches_rec (a ++ [x]) =
  switches_rec a +
  match last a with
  | Some y => if decide (y = x) then 0 else 1
  | None => 0
  end.
Proof.
  induction a as [|y [|z a] IH]; [done| |].
  - cbn. repeat case_decide; lia.
  - change ((y :: z :: a) ++ [x]) with (y :: (z :: a) ++ [x]).
    change (switches_rec (y :: (z :: a) ++ [x]))
      with ((if decide (y = z) then 0 else 1) + switches_rec ((z :: a) ++ [x])).
    rewrite IH. change (last (y :: z :: a)) with (last (z :: a)).
    cbn [switches_rec]. lia.
Qed.

Lemma switches_snoc a x :
  switches (a ++ [x]) =
  switches a +
  match last a with
  | Some y => if decide (y = x) then 0 else 1
  | None => 0
  end.
Proof. rewrite !switches_rec_eq. apply switches_rec_snoc. Qed.

Lemma switches_nonneg a : 0 ≤ switches a.
Proof. unfold switches. lia. Qed.
End Switches.

Lemma obj_cons2 x y X :
  obj (x :: y :: X) = sqr (x - y) + obj (y :: X).
Proof.
  unfold obj. cbn [length].
  change (seq 1 (S (S (length X)))) with (1%nat :: seq 2 (S (length X))).
  rewrite filter_cons_True by lia.
  rewrite fmap_cons. cbn [foldr]. f_equal.
  rewrite <- (fmap_S_seq 1), filter_fmap_comp, <- list_fmap_compose.
  rewrite (filter_ext_elem (_ ∘ S) (λ k, (k < S (length X))%nat))
    by (intros k _; unfold compose; lia).
  f_equal. apply list_fmap_ext. intros i k Hk.
  apply list_elem_of_lookup_2, list_elem_of_filter in Hk as [_ Hk].
  apply elem_of_seq in Hk. unfold compose, X_at.
  destruct k as [|k]; [lia|].
  replace (S (S k) + 1 - 1)%nat with (S (S k + 1 - 1)) by lia.
  replace (S (S k) - 1)%nat with (S (S k - 1)) by lia. done.
Qed.

Lemma obj_rec_eq X : obj X = obj_rec X.
Proof.
  induction X as [|x [|y X] IH]; [done..|].
  rewrite obj_cons2, IH. done.
Qed.

(** On binary levels a squared difference is 1 when the two levels
    differ and 0 when they agree. *)
Lemma sqr_binary x y :
  (x = 0 ∨ x = 1) → (y = 0 ∨ y = 1) →
  sqr (x - y) = if decide (x = y) then 0 else 1.
Proof. unfold sqr. intros [-> | ->] [-> | ->]; case_decide; lia. Qed.

(** C4. Objective equivalence: for every binary assignment [X] (each level
    0 or 1) the quadratic objective, the sum over adjacent positions
    [(i, i+1)] of [(X_i - X_{i+1})²], equals the switch count of [X], the
    number of positions [p] in [1..n-1] with [X_p ≠ X_{p-1}]. *)
Theorem obj_eq_switches (X : list Z) :
  Forall (λ x, x = 0 ∨ x = 1) X → obj X = switches X.
Proof.
  induction X as [|x [|y X] IH]; intros HX; [done..|].
  apply Forall_cons in HX as [Hx HX].
  pose proof HX as [Hy _]%Forall_cons.
  rewrite obj_cons2, switches_cons2, IH, sqr_binary by done. done.
Qed.

Lemma obj_eq_switches_witness :
  Forall (λ x, x = 0 ∨ x = 1) [0; 1; 1; 0; 1] ∧
  obj [0; 1; 1; 0; 1] = switches [0; 1; 1; 0; 1].
Proof.
  assert (H : Forall (λ x, x = 0 ∨ x = 1) [0; 1; 1; 0; 1])
    by (repeat constructor; lia).
  split; [exact H | exact (obj_eq_switches _ H)].
Defined.

(** ** Counting occurrences and painted positions *)

Lemma count_nonneg t sequence : 0 ≤ count t sequence.
Proof. unfold count. lia. Qed.

Lemma count_snoc t sequence car :
  count t (sequence ++ [car]) =
  count t sequence + (if decide (car = t) then 1 else 0).
Proof.
  unfold count. rewrite filter_app, length_app, filter_cons, filter_nil.
  case_decide; cbn [length]; lia.
Qed.

Lemma count_cons t sequence car :
  count t (car :: sequence) =
  (if decide (car = t) then 1 else 0) + count t sequence.
Proof.
  unfold count. rewrite filter_cons. case_decide; cbn [length]; lia.
Qed.

Lemma count_app t l1 l2 : count t (l1 ++ l2) = count t l1 + count t l2.
Proof. unfold count. rewrite filter_app, length_app. lia. Qed.

Lemma count_pos_elem t sequence : 0 < count t sequence ↔ t ∈ sequence.
Proof.
  induction sequence as [|car sequence IH].
  - unfold count. rewrite filter_nil. cbn [length].
    split; [intros; lia|]. intros []%elem_of_nil.
  - rewrite count_cons, elem_of_cons. pose proof (count_nonneg t sequence).
    destruct (decide (car = t)) as [-> | Hne]; split.
    + intros _. by left.
    + intros _. lia.
    + intros Hpos. right. apply IH. lia.
    + intros [-> | Hin]; [done|]. apply IH in Hin. lia.
Qed.

Lemma painted_nonneg sequence coloring t c : 0 ≤ painted sequence coloring t c.
Proof. unfold painted. lia. Qed.

Lemma painted_nil coloring t c : painted [] coloring t c = 0.
Proof. done. Qed.

Lemma painted_snoc sequence coloring car c0 t c :
  length coloring = length sequence →
  painted (sequence ++ [car]) (coloring ++ [c0]) t c =
  painted sequence coloring t c +
  (if decide (car = t ∧ c0 = c) then 1 else 0).
Proof.
  intros Hlen. unfold painted.
  rewrite (zip_with_app pair sequence [car] coloring [c0]) by done.
  rewrite filter_app, length_app. cbn [zip_with].
  rewrite filter_cons, filter_nil. cbn [fst snd].
  repeat case_decide; cbn [length]; try lia; tauto.
Qed.

Lemma painted_cons sequence coloring car c0 t c :
  painted (car :: sequence) (c0 :: coloring) t c =
  (if decide (car = t ∧ c0 = c) then 1 else 0) +
  painted sequence coloring t c.
Proof.
  unfold painted, zip. cbn [zip_with]. rewrite filter_cons. cbn [fst snd].
  repeat case_decide; cbn [length]; try lia; tauto.
Qed.

(** Every labelled position is white or black. *)
Lemma painted_total sequence coloring t :
  length coloring = length sequence →
  painted sequence coloring t white + painted sequence coloring t black =
  count t sequence.
Proof.
  revert coloring.
  induction sequence as [|car sequence IH]; intros [|c0 coloring] Hlen;
    try done.
  rewrite !painted_cons, count_cons.
  rewrite <- (IH coloring) by (cbn in Hlen; lia).
  destruct c0; repeat case_decide; try lia;
    repeat match goal with H : _ ∧ _ |- _ => destruct H end;
    try congruence; tauto.
Qed.

(** ** Exhaustive search *)

Lemma elem_of_all_colorings n r : r ∈ all_colorings n ↔ length r = n.
Proof.
  revert r. induction n as [|n IH]; intros r; cbn [all_colorings].
  - rewrite list_elem_of_singleton. destruct r; naive_solver.
  - rewrite list_elem_of_bind. split.
    + intros (r' & Hr & Hr'%IH).
      apply elem_of_cons in Hr as [-> | Hr%list_elem_of_singleton];
        subst; cbn [length]; lia.
    + destruct r as [|c r]; [done|]. intros Hlen.
      exists r. split.
      * destruct c; [left | right; left].
      * apply IH. cbn in Hlen. lia.
Qed.

Lemma foldr_min_le x l y : y ∈ x :: l → foldr Z.min x l ≤ y.
Proof.
  induction l as [|z l IH]; cbn [foldr].
  - intros ->%list_elem_of_singleton. lia.
  - rewrite !elem_of_cons. intros [-> | [-> | Hy]].
    + etrans; [apply Z.le_min_r|]. apply IH. left.
    + apply Z.le_min_l.
    + etrans; [apply Z.le_min_r|]. apply IH. by right.
Qed.

Lemma foldr_min_elem x l : foldr Z.min x l ∈ x :: l.
Proof.
  induction l as [|z l IH]; cbn [foldr]; [left|].
  destruct (Z.min_spec z (foldr Z.min x l)) as [[_ ->] | [_ ->]].
  - right. left.
  - apply elem_of_cons in IH as [-> | IH]; [left | by do 2 right].
Qed.

(** The search returns a lower bound of every colouring that meets the
    demand. *)
Lemma min_switches_le sequence dw db r :
  meets_demand sequence dw db r →
  ∃ m, min_switches sequence dw db = Some m ∧ m ≤ switches r.
Proof.
  intros Hr. unfold min_switches.
  assert (Hin : switches r ∈
    switches <$> filter (meets_demand sequence dw db)
                        (all_colorings (length sequence))).
  { apply list_elem_of_fmap_2, list_elem_of_filter. split; [done|].
    apply elem_of_all_colorings, Hr. }
  destruct (switches <$> filter _ _) as [|x l]; [by apply elem_of_nil in Hin|].
  eexists. split; [done|]. by apply foldr_min_le.
Qed.

(** The value returned by the search is attained. *)
Lemma min_switches_attained sequence dw db m :
  min_switches sequence dw db = Some m →
  ∃ r, meets_demand sequence dw db r ∧ switches r = m.
Proof.
  unfold min_switches. intros Hm.
  destruct (switches <$> filter _ _) as [|x l] eqn:Hl; [done|].
  injection Hm as <-.
  pose proof (foldr_min_elem x l) as Hin. rewrite <- Hl in Hin.
  apply list_elem_of_fmap in Hin as (r & -> & Hr%list_elem_of_filter).
  exists r. split; [apply Hr | done].
Qed.

(** ** The binary heuristic *)

Module BinaryFacts.
Import Binary BinaryInv.

Lemma binary_inv_init : inv [] init.
Proof.
  split; cbn; done.
Qed.

Lemma binary_flip_ne c : flip c ≠ c.
Proof. by destruct c. Qed.

(** Adding the car to the set of its colour keeps the sets in step
    with the painted positions. *)
Lemma binary_colors_snoc pre (cols : color → gset string) res car c0 t c :
  length res = length pre →
  (∀ t c, t ∈ cols c ↔ 0 < painted pre res t c) →
  t ∈ (if decide (c = c0) then {[car]} ∪ cols c else cols c) ↔
  0 < painted (pre ++ [car]) (res ++ [c0]) t c.
Proof.
  intros Hlen Hcol. rewrite painted_snoc by done.
  pose proof (painted_nonneg pre res t c).
  destruct (decide (c = c0)) as [-> | Hne].
  - rewrite elem_of_union, elem_of_singleton, Hcol.
    case_decide as Hd; split; intros Ht; try lia.
    + destruct Hd as [-> _]. by left.
    + destruct Ht as [-> | ?]; [tauto | lia].
  - rewrite Hcol, decide_False; [lia|]. intros [_ ->]. done.
Qed.

Lemma binary_inv_step pre st car : inv pre st → inv (pre ++ [car]) (step st car).
Proof.
  intros [Hlen Hcol Hcur Hchg Honce]. unfold step.
  set (cur := current_color st) in *.
  destruct (decide (car ∈ colors st cur)) as [Hin | Hnin].
  - (* the type was already painted in the current colour: change colour *)
    pose proof Hin as Hpos%Hcol.
    assert (Hlast : last (result st) = Some cur).
    { destruct (result st) as [|c0 r] eqn:Hr.
      - destruct pre; [|done]. rewrite painted_nil in Hpos. lia.
      - rewrite Hcur. by destruct (last (c0 :: r)) eqn:Hl;
          [|apply last_None in Hl]. }
    split; cbn -[switches painted].
    + rewrite !length_app, Hlen. done.
    + intros t c. by apply binary_colors_snoc.
    + by rewrite last_snoc.
    + rewrite switches_snoc, Hlast, decide_False by (symmetry; apply binary_flip_ne).
      fold cur. lia.
    + intros t c. rewrite count_snoc, painted_snoc by done.
      pose proof (painted_total pre (result st) t Hlen) as Htot.
      pose proof (painted_nonneg pre (result st) t white).
      pose proof (painted_nonneg pre (result st) t black).
      pose proof (Honce t c).
      destruct (decide (car = t)) as [<- | Hne].
      * intros Hcnt. case_decide as Hd; [|lia].
        destruct Hd as [_ <-]. destruct cur; cbn in *; lia.
      * rewrite decide_False by tauto. lia.
  - (* keep the current colour *)
    assert (Hzero : painted pre (result st) car cur = 0).
    { pose proof (painted_nonneg pre (result st) car cur).
      destruct (decide (0 < painted pre (result st) car cur)) as [Hp|];
        [by apply Hcol in Hp | lia]. }
    split; cbn -[switches painted].
    + rewrite !length_app, Hlen. done.
    + intros t c. by apply binary_colors_snoc.
    + by rewrite last_snoc.
    + rewrite switches_snoc. fold cur.
      destruct (last (result st)) as [c0|] eqn:Hl; cbn in Hcur.
      * rewrite decide_True by done. lia.
      * lia.
    + intros t c. rewrite count_snoc, painted_snoc by done. fold cur.
      pose proof (painted_total pre (result st) t Hlen) as Htot.
      pose proof (painted_nonneg pre (result st) t white).
      pose proof (painted_nonneg pre (result st) t black).
      pose proof (Honce t c).
      destruct (decide (car = t)) as [<- | Hne].
      * intros Hcnt. case_decide as Hd; [|lia].
        destruct Hd as [_ <-]. lia.
      * rewrite decide_False by tauto. lia.
Qed.

Lemma binary_inv_run rest : ∀ pre st,
  inv pre st → inv (pre ++ rest) (run st rest).
Proof.
  induction rest as [|car rest IH]; intros pre st Hinv; cbn.
  - by rewrite app_nil_r.
  - rewrite cons_middle, app_assoc. apply IH, binary_inv_step, Hinv.
Qed.

Lemma binary_inv_heuristic sequence : inv sequence (heuristic sequence).
Proof. apply (binary_inv_run sequence [] init), binary_inv_init. Qed.

(** The pass labels every position, and its counter agrees with the
    switch count of the colouring it returns. *)
Lemma binary_heuristic_length sequence :
  length (result (heuristic sequence)) = length sequence.
Proof. apply binary_inv_heuristic. Qed.

Lemma binary_heuristic_changes sequence :
  changes (heuristic sequence) = switches (result (heuristic sequence)).
Proof. apply binary_inv_heuristic. Qed.

(** When every type occurs twice, one car of each type is painted in
    each colour. *)
Lemma binary_heuristic_meets_demand sequence :
  every_type_twice sequence →
  meets_demand sequence (binary_demand sequence) (binary_demand sequence)
               (result (heuristic sequence)).
Proof.
  intros Htwice. destruct (binary_inv_heuristic sequence) as [Hlen _ _ _ Honce].
  assert (Hone : ∀ t c, t ∈ sequence →
    painted sequence (result (heuristic sequence)) t c = 1).
  { intros t c Ht.
    pose proof (proj1 (Forall_forall _ _) Htwice t Ht) as Hcnt.
    cbn beta in Hcnt.
    pose proof (painted_total sequence _ t Hlen).
    pose proof (Honce t white). pose proof (Honce t black).
    destruct c; lia. }
  split; [done|].
  split; intros t v [Ht <-]%lookup_gset_to_gmap_Some;
    apply Hone; by apply elem_of_list_to_set in Ht.
Qed.

End BinaryFacts.

(** The colouring the binary heuristic returns for [sequence12], as the
    notebook prints it. *)
Example heuristic_sequence12 :
  Binary.result (Binary.heuristic sequence12) =
  [white; white; white; white; black; black; black; black;
   white; black; black; white].
Proof. vm_compute. reflexivity. Qed.

(** C2. On [A,D,E,B,A,F,C,B,C,D,E,F] with one white and one black car per
    type, the binary heuristic reports 4 changes and returns a colouring
    with exactly 4 switches, whereas the minimum switch count over all
    colourings that meet the demand is 2: some such colouring has 2
    switches and none has fewer. The counter pass, run with demand one
    white and one black per type, returns the same colouring and count. *)
Theorem sequence12_heuristic_4_optimum_2 :
  every_type_twice sequence12 ∧
  Binary.changes (Binary.heuristic sequence12) = 4 ∧
  switches (Binary.result (Binary.heuristic sequence12)) = 4 ∧
  min_switches sequence12 (binary_demand sequence12) (binary_demand sequence12)
    = Some 2 ∧
  (∃ r, meets_demand sequence12 (binary_demand sequence12)
                     (binary_demand sequence12) r ∧ switches r = 2) ∧
  (∀ r, meets_demand sequence12 (binary_demand sequence12)
                     (binary_demand sequence12) r → 2 ≤ switches r) ∧
  match Multi.heuristic sequence12 (binary_demand sequence12)
                        (binary_demand sequence12) with
  | inr st => Multi.result st = Binary.result (Binary.heuristic sequence12) ∧
              Multi.changes st = 4
  | inl _ => False
  end.
Proof.
  assert (Hmin : min_switches sequence12 (binary_demand sequence12)
                   (binary_demand sequence12) = Some 2)
    by (vm_compute; reflexivity).
  split; [by apply (bool_decide_unpack _); vm_compute|].
  split; [by vm_compute|]. split; [by vm_compute|]. split; [done|].
  split; [by apply min_switches_attained|]. split.
  - intros r (m & Hm & Hle)%min_switches_le. congruence.
  - clear Hmin. vm_compute. split; reflexivity.
Qed.

(** C1, as stated, fails: on [sequence12] every type occurs exactly twice,
    yet the switch count of the heuristic's colouring is not the minimum
    over the colourings that meet the demand. *)
Lemma binary_heuristic_not_optimal :
  every_type_twice sequence12 ∧
  min_switches sequence12 (binary_demand sequence12) (binary_demand sequence12)
  ≠ Some (switches (Binary.result (Binary.heuristic sequence12))).
Proof.
  split; [by apply (bool_decide_unpack _); vm_compute|].
  by vm_compute.
Qed.

(** C1, amended. When every type occurs exactly twice, the colouring of
    the binary heuristic meets the implicit demand (one white and one
    black car of each type), its change counter is the switch count of
    that colouring, and this switch count is bounded below by the minimum
    over all colourings that meet the demand. *)
Theorem binary_heuristic_feasible_above_optimum (sequence : list string) :
  every_type_twice sequence →
  meets_demand sequence (binary_demand sequence) (binary_demand sequence)
               (Binary.result (Binary.heuristic sequence)) ∧
  Binary.changes (Binary.heuristic sequence) =
    switches (Binary.result (Binary.heuristic sequence)) ∧
  ∃ m, min_switches sequence (binary_demand sequence) (binary_demand sequence)
         = Some m ∧
       m ≤ switches (Binary.result (Binary.heuristic sequence)).
Proof.
  intros Htwice.
  pose proof (BinaryFacts.binary_heuristic_meets_demand sequence Htwice) as Hmeets.
  split; [done|]. split; [apply BinaryFacts.binary_heuristic_changes|].
  by apply min_switches_le.
Qed.

Lemma binary_heuristic_feasible_above_optimum_witness :
  every_type_twice ["A"; "B"; "A"; "B"]%string ∧
  ∃ m, min_switches ["A"; "B"; "A"; "B"]%string
         (binary_demand ["A"; "B"; "A"; "B"]%string)
         (binary_demand ["A"; "B"; "A"; "B"]%string) = Some m ∧
       m ≤ switches (Binary.result (Binary.heuristic ["A"; "B"; "A"; "B"]%string)).
Proof.
  assert (H : every_type_twice ["A"; "B"; "A"; "B"]%string)
    by (apply (bool_decide_unpack _); vm_compute; exact I).
  split; [exact H|].
  exact (proj2 (proj2 (binary_heuristic_feasible_above_optimum _ H))).
Defined.

(** ** The multi-demand heuristic *)

Module MultiFacts.
Import Multi MultiInv.

(** The two branches of [step], when the lookups succeed. *)
Lemma multi_step_keep st car v :
  colors st (current_color st) !! car = Some v → v > 0 →
  step st car =
  inr (State (λ c', if decide (c' = current_color st)
                    then <[car := v - 1]> (colors st c') else colors st c')
             (result st ++ [current_color st]) (changes st)
             (current_color st)).
Proof.
  intros Hv Hpos. unfold step, paint_car, getitem, bind, ret.
  rewrite Hv. rewrite decide_True by done. done.
Qed.

Lemma multi_step_flip st car v w :
  colors st (current_color st) !! car = Some v → ¬ v > 0 →
  colors st (flip (current_color st)) !! car = Some w →
  step st car =
  inr (State (λ c', if decide (c' = flip (current_color st))
                    then <[car := w - 1]> (colors st c') else colors st c')
             (result st ++ [flip (current_color st)]) (changes st + 1)
             (flip (current_color st))).
Proof.
  intros Hv Hpos Hw. unfold step, paint_car, getitem, bind, ret.
  rewrite Hv. rewrite decide_False by done. cbn. rewrite Hw. done.
Qed.

Section Pass.
(** The demands the counters were initialised from. *)
Variable demand : color → gmap string Z.
Local Abbreviation inv := (MultiInv.inv demand).
Local Abbreviation within_demand := (MultiInv.within_demand demand).

Lemma multi_colors_snoc pre st car c0 v c t :
  length (result st) = length pre →
  (∀ c t, colors st c !! t =
          (λ v, v - painted pre (result st) t c) <$> demand c !! t) →
  colors st c0 !! car = Some v →
  (if decide (c = c0) then <[car := v - 1]> (colors st c)
   else colors st c) !! t =
  (λ v, v - painted (pre ++ [car]) (result st ++ [c0]) t c)
    <$> demand c !! t.
Proof.
  intros Hlen Hcol Hv. rewrite painted_snoc by done.
  destruct (decide (c = c0)) as [-> | Hne].
  - destruct (decide (car = t)) as [-> | Hne].
    + rewrite lookup_insert_eq, decide_True by done.
      rewrite Hcol in Hv. destruct (demand c0 !! t); [|done].
      cbn in *. f_equal. injection Hv as <-. lia.
    + rewrite lookup_insert_ne, decide_False, Hcol by tauto.
      destruct (demand c0 !! t); [|done]. cbn. f_equal. lia.
  - rewrite decide_False, Hcol by (intros [_ ->]; done).
    destruct (demand c !! t); [|done]. cbn. f_equal. lia.
Qed.

(** One iteration succeeds when the car type has both counters, and
    it appends the label the test on the current counter selects. *)
Lemma multi_inv_step pre st car :
  inv pre st →
  is_Some (demand white !! car) → is_Some (demand black !! car) →
  ∃ st' v, step st car = inr st' ∧ inv (pre ++ [car]) st' ∧
           colors st (current_color st) !! car = Some v ∧
           current_color st' =
             (if decide (v > 0) then current_color st
              else flip (current_color st)) ∧
           result st' = result st ++ [current_color st'].
Proof.
  intros [Hlen Hcol Hcur Hchg] Hw Hb.
  assert (Hboth : ∀ c, is_Some (colors st c !! car)).
  { intros c. rewrite Hcol. apply fmap_is_Some. by destruct c. }
  destruct (Hboth (current_color st)) as [v Hv].
  destruct (Hboth (flip (current_color st))) as [w Hfl].
  destruct (decide (v > 0)) as [Hpos | Hpos].
  - rewrite (multi_step_keep st car v) by done.
    eexists _, v. split; [done|]. split;
      [|split; [done|]; split; [cbn; by rewrite decide_True|done]].
    split; cbn -[switches painted].
    + rewrite !length_app, Hlen. done.
    + intros c t. by apply multi_colors_snoc.
    + by rewrite last_snoc.
    + rewrite switches_snoc, Hchg, Hcur.
      destruct (result st) as [|c0 r]; [by cbn|].
      destruct (last (c0 :: r)) as [cl|] eqn:Hl;
        [|by apply last_None in Hl].
      cbn [default head app].
      repeat case_decide; try lia; by destruct cl.
  - rewrite (multi_step_flip st car v w) by done.
    eexists _, v. split; [done|]. split;
      [|split; [done|]; split; [cbn; by rewrite decide_False|done]].
    split; cbn -[switches painted].
    + rewrite !length_app, Hlen. done.
    + intros c t. by apply multi_colors_snoc.
    + by rewrite last_snoc.
    + rewrite switches_snoc, Hchg, Hcur.
      destruct (result st) as [|c0 r]; [by cbn|].
      destruct (last (c0 :: r)) as [cl|] eqn:Hl;
        [|by apply last_None in Hl].
      cbn [default head app].
      repeat case_decide; try lia; by destruct cl.
Qed.

(** The pass is total on sequences whose types all have counters. *)
Lemma multi_inv_run rest : ∀ pre st,
  inv pre st →
  (∀ t, t ∈ rest →
        is_Some (demand white !! t) ∧ is_Some (demand black !! t)) →
  ∃ st', run st rest = inr st' ∧ inv (pre ++ rest) st'.
Proof.
  induction rest as [|car rest IH]; intros pre st Hinv Hkeys.
  - exists st. by rewrite app_nil_r.
  - destruct (Hkeys car) as [Hw Hb]; [left|].
    destruct (multi_inv_step pre st car Hinv Hw Hb) as (st' & v & Hst & Hinv' & _).
    destruct (IH (pre ++ [car]) st' Hinv') as (st'' & Hrun & Hinv'').
    { intros t Ht. apply Hkeys. by right. }
    exists st''. cbn [run]. rewrite Hst. cbn.
    by rewrite cons_middle, app_assoc.
Qed.

(** An iteration keeps the colouring within the demand as long as the
    two demands of the car type leave room for one more car. *)
Lemma multi_within_demand_step pre st car w b :
  inv pre st → within_demand pre st →
  demand white !! car = Some w → demand black !! car = Some b →
  count car pre < w + b →
  ∃ st', step st car = inr st' ∧ inv (pre ++ [car]) st' ∧
         within_demand (pre ++ [car]) st'.
Proof.
  intros Hinv Hwithin Hw Hb Hroom.
  destruct (multi_inv_step pre st car Hinv) as (st' & v & Hst & Hinv' & Hv & Hcur & Hres);
    [done..|].
  exists st'. split; [done|]. split; [done|].
  destruct Hinv as [Hlen Hcol _ _].
  intros c t d Hd. rewrite Hres, painted_snoc by done.
  pose proof (Hwithin c t d Hd).
  destruct (decide (car = t ∧ current_color st' = c)) as [[<- <-] | _];
    [|lia].
  pose proof (painted_total pre (result st) car Hlen) as Htot.
  pose proof (Hwithin white car w Hw). pose proof (Hwithin black car b Hb).
  rewrite Hcol in Hv. rewrite Hcur in Hd |- *.
  destruct (decide (v > 0)).
  - rewrite Hd in Hv. cbn in Hv. injection Hv as <-. lia.
  - destruct (current_color st); cbn in Hd, Hv |- *.
    + rewrite Hw in Hv. cbn in Hv. injection Hv as <-.
      rewrite Hb in Hd. injection Hd as <-. lia.
    + rewrite Hb in Hv. cbn in Hv. injection Hv as <-.
      rewrite Hw in Hd. injection Hd as <-. lia.
Qed.

Lemma multi_within_demand_run rest : ∀ pre st,
  inv pre st → within_demand pre st →
  (∀ t, t ∈ rest → ∃ w b,
     demand white !! t = Some w ∧ demand black !! t = Some b ∧
     w + b = count t (pre ++ rest)) →
  ∃ st', run st rest = inr st' ∧ inv (pre ++ rest) st' ∧
         within_demand (pre ++ rest) st'.
Proof.
  induction rest as [|car rest IH]; intros pre st Hinv Hwithin Hkeys.
  - exists st. by rewrite app_nil_r.
  - destruct (Hkeys car) as (w & b & Hw & Hb & Hsum); [left|].
    destruct (multi_within_demand_step pre st car w b)
      as (st' & Hst & Hinv' & Hwithin'); [done..| |].
    { rewrite Hsum, count_app, count_cons, decide_True by done.
      pose proof (count_nonneg car rest). lia. }
    destruct (IH (pre ++ [car]) st' Hinv' Hwithin')
      as (st'' & Hrun & Hinv'' & Hwithin'').
    { intros t Ht. rewrite <- app_assoc. apply Hkeys. by right. }
    exists st''. cbn [run]. rewrite Hst. cbn.
    by rewrite cons_middle, app_assoc.
Qed.
End Pass.

Lemma multi_inv_init dw db : inv (demand_of dw db) [] (init dw db).
Proof.
  split; cbn; try done.
  intros c t. rewrite painted_nil.
  destruct c; cbn; destruct (_ !! t); cbn; f_equal; lia.
Qed.

Lemma multi_heuristic_inv sequence dw db :
  (∀ t, t ∈ sequence → is_Some (dw !! t) ∧ is_Some (db !! t)) →
  ∃ st, heuristic sequence dw db = inr st ∧
        inv (demand_of dw db) sequence st.
Proof.
  intros Hkeys.
  apply (multi_inv_run (demand_of dw db) sequence [] (init dw db)); [|done].
  apply multi_inv_init.
Qed.

End MultiFacts.

(** A computation that evaluates to a state with a property returns such a
    state. *)
Lemma returns_with {A} (m : M A) (P : A → Prop) :
  match m with inr a => P a | inl _ => False end → ∃ a, m = inr a ∧ P a.
Proof. destruct m as [e | a]; [done|]. intros Ha. by exists a. Qed.

Lemma lookup_complement_demand sequence d t :
  complement_demand sequence d !! t = (λ v, count t sequence - v) <$> d !! t.
Proof.
  unfold complement_demand. rewrite map_lookup_imap.
  by destruct (d !! t).
Qed.

(** C3. Demand conservation: for every sequence and every feasible black
    demand (each count between 0 and the occurrences of its type, the
    types of the demand being those of the sequence), white demand being
    the complement, the multi-demand heuristic completes, labels every
    position, and paints of every type [t] exactly the demanded number of
    cars black and the remaining occurrences white. *)
Theorem greedy_demand_conservation (sequence : list string)
    (demand_black : gmap string Z) :
  feasible_demand sequence demand_black →
  ∃ st,
    Multi.heuristic sequence (complement_demand sequence demand_black)
                    demand_black = inr st ∧
    length (Multi.result st) = length sequence ∧
    ∀ t, painted sequence (Multi.result st) t black
           = default 0 (demand_black !! t) ∧
         painted sequence (Multi.result st) t white
           = count t sequence - default 0 (demand_black !! t).
Proof.
  intros [Hdom Hrange].
  set (dw := complement_demand sequence demand_black).
  destruct (MultiFacts.multi_within_demand_run (Multi.demand_of dw demand_black)
              sequence [] (Multi.init dw demand_black))
    as (st & Hrun & Hinv & Hwithin).
  - apply MultiFacts.multi_inv_init.
  - intros c t d Hd. rewrite painted_nil. destruct c; cbn in Hd.
    + unfold dw in Hd. rewrite lookup_complement_demand in Hd.
      destruct (demand_black !! t) as [b|] eqn:Hb; [|done].
      injection Hd as <-. apply Hrange in Hb. cbn in Hb. lia.
    + apply Hrange in Hd. cbn in Hd. lia.
  - intros t Ht. cbn [app].
    assert (is_Some (demand_black !! t)) as [b Hb].
    { apply elem_of_dom. rewrite Hdom. by apply elem_of_list_to_set. }
    exists (count t sequence - b), b. cbn. unfold dw.
    rewrite lookup_complement_demand, Hb. cbn. split; [done|].
    split; [done|]. lia.
  - exists st. split; [done|]. cbn [app] in *.
    pose proof (MultiInv.inv_length _ _ _ Hinv) as Hlen.
    split; [done|]. intros t.
    pose proof (painted_total sequence (Multi.result st) t Hlen) as Htot.
    pose proof (painted_nonneg sequence (Multi.result st) t white).
    pose proof (painted_nonneg sequence (Multi.result st) t black).
    destruct (demand_black !! t) as [b|] eqn:Hb; cbn [default from_option];
      unfold id.
    + pose proof (Hwithin black t b Hb).
      pose proof (Hwithin white t (count t sequence - b)) as Hwh.
      cbn in Hwh. unfold dw in Hwh.
      rewrite lookup_complement_demand, Hb in Hwh.
      specialize (Hwh eq_refl). lia.
    + assert (Hnin : t ∉ sequence).
      { rewrite <- (elem_of_list_to_set (C := gset string)).
        fold (types_of sequence). rewrite <- Hdom. by apply not_elem_of_dom. }
      rewrite <- count_pos_elem in Hnin. lia.
Qed.

Lemma greedy_demand_conservation_witness :
  feasible_demand ["A"; "B"; "A"; "A"]%string
                  {["A"%string := 2; "B"%string := 0]} ∧
  ∃ st,
    Multi.heuristic ["A"; "B"; "A"; "A"]%string
      (complement_demand ["A"; "B"; "A"; "A"]%string
                         {["A"%string := 2; "B"%string := 0]})
      {["A"%string := 2; "B"%string := 0]} = inr st ∧
    length (Multi.result st) = length ["A"; "B"; "A"; "A"]%string ∧
    ∀ t, painted ["A"; "B"; "A"; "A"]%string (Multi.result st) t black
           = default 0 (({["A"%string := 2; "B"%string := 0]}
                          : gmap string Z) !! t) ∧
         painted ["A"; "B"; "A"; "A"]%string (Multi.result st) t white
           = count t ["A"; "B"; "A"; "A"]%string
             - default 0 (({["A"%string := 2; "B"%string := 0]}
                            : gmap string Z) !! t).
Proof.
  assert (H : feasible_demand ["A"; "B"; "A"; "A"]%string
                {["A"%string := 2; "B"%string := 0]})
    by (apply (bool_decide_unpack _); vm_compute; exact I).
  split; [exact H|]. exact (greedy_demand_conservation _ _ H).
Defined.

(** C5, at the failing input. On the one-car sequence [A] with feasible
    demand white 0, black 1, the pass flips before painting the first car:
    it reports 1 change although the colouring [black] it returns has no
    switch. *)
Theorem multi_heuristic_counts_initial_flip :
  feasible_demand ["A"%string] {["A"%string := 1]} ∧
  complement_demand ["A"%string] {["A"%string := 1]} = {["A"%string := 0]} ∧
  ∃ st,
    Multi.heuristic ["A"%string] {["A"%string := 0]} {["A"%string := 1]}
      = inr st ∧
    Multi.result st = [black] ∧
    Multi.changes st = 1 ∧
    switches (Multi.result st) = 0.
Proof.
  split; [by apply (bool_decide_unpack _); vm_compute|].
  split; [by vm_compute|].
  apply returns_with. vm_compute. repeat split; reflexivity.
Qed.

(** The reported change count is the switch count of the returned
    colouring, plus one exactly when the first car is painted black. *)
Lemma multi_heuristic_changes sequence dw db st :
  (∀ t, t ∈ sequence → is_Some (dw !! t) ∧ is_Some (db !! t)) →
  Multi.heuristic sequence dw db = inr st →
  Multi.changes st =
  switches (Multi.result st) +
  (if decide (head (Multi.result st) = Some black) then 1 else 0).
Proof.
  intros Hkeys Hst.
  destruct (MultiFacts.multi_heuristic_inv sequence dw db Hkeys) as (st' & Hst' & Hinv).
  rewrite Hst in Hst'. injection Hst' as <-. apply Hinv.
Qed.

(** C6, as stated, fails: with both counters of type A at zero the
    iteration raises nothing; it flips to black, paints the car black and
    leaves the black counter at -1, and the whole pass over [A] returns
    the colouring [black]. *)
Lemma exhausted_capacity_not_raised :
  let st := Multi.init {["A"%string := 0]} {["A"%string := 0]} in
  Multi.colors st (Multi.current_color st) !! "A"%string = Some 0 ∧
  Multi.colors st (flip (Multi.current_color st)) !! "A"%string = Some 0 ∧
  (¬ ∃ e, Multi.step st "A"%string = inl e) ∧
  ∃ st',
    Multi.heuristic ["A"%string] {["A"%string := 0]} {["A"%string := 0]}
      = inr st' ∧
    Multi.result st' = [black] ∧
    Multi.colors st' black !! "A"%string = Some (-1).
Proof.
  cbn zeta. split; [by vm_compute|]. split; [by vm_compute|]. split.
  - intros [e He].
    rewrite (MultiFacts.multi_step_flip _ _ 0 0) in He by (done || lia).
    discriminate He.
  - apply returns_with. vm_compute. repeat split; reflexivity.
Qed.

(** C6, amended. Whenever the current colour has no remaining capacity
    for the type of the current car and the other colour has none either,
    the pass does not fail: it flips the colour, counts one change, labels
    the position with the new colour and decrements that colour's counter
    below zero, and continues with the next car. *)
Theorem exhausted_capacity_continues (st : Multi.state) (car : string) (v w : Z) :
  Multi.colors st (Multi.current_color st) !! car = Some v → v ≤ 0 →
  Multi.colors st (flip (Multi.current_color st)) !! car = Some w → w ≤ 0 →
  ∃ st',
    Multi.step st car = inr st' ∧
    Multi.current_color st' = flip (Multi.current_color st) ∧
    Multi.changes st' = Multi.changes st + 1 ∧
    Multi.result st' = Multi.result st ++ [flip (Multi.current_color st)] ∧
    Multi.colors st' (flip (Multi.current_color st)) !! car = Some (w - 1) ∧
    w - 1 < 0 ∧
    Multi.colors st' (Multi.current_color st) !! car = Some v ∧
    ∀ rest, Multi.run st (car :: rest) = Multi.run st' rest.
Proof.
  intros Hv Hle Hw Hle'.
  eexists. split; [apply (MultiFacts.multi_step_flip st car v w); [done|lia|done]|].
  cbn. split; [done|]. split; [done|]. split; [done|].
  rewrite decide_True, lookup_insert_eq by done. split; [done|].
  split; [lia|].
  rewrite decide_False by (destruct (Multi.current_color st); done).
  split; [done|]. intros rest.
  rewrite (MultiFacts.multi_step_flip st car v w) by (done || lia). done.
Qed.

Lemma exhausted_capacity_continues_witness :
  ∃ st',
    Multi.step (Multi.init {["A"%string := 0]} {["A"%string := 0]}) "A"%string
      = inr st' ∧
    Multi.result st' = [black] ∧
    Multi.colors st' black !! "A"%string = Some (-1).
Proof.
  destruct (exhausted_capacity_continues
              (Multi.init {["A"%string := 0]} {["A"%string := 0]})
              "A"%string 0 0)
    as (st' & Hst & _ & _ & Hres & Hcol & _); [reflexivity | lia | reflexivity | lia |].
  exists st'. split; [exact Hst|]. split; [exact Hres | exact Hcol].
Defined.

(** C10, as stated, fails: on [A,A,A] with black demand 4 (white the
    complement, -1) every type of the sequence has its counters and the
    demand is infeasible; the pass completes with three labels, but no
    counter is decremented below zero: white is never touched and black
    ends at 1. Likewise on [A] with white demand 1 and black demand 1,
    which do not add up to the single occurrence: the pass returns
    [white] and leaves the counters at 0 and 1. *)
Lemma infeasible_without_negative_decrement :
  ((∀ t, t ∈ ["A"; "A"; "A"]%string →
         is_Some (complement_demand ["A"; "A"; "A"]%string
                    {["A"%string := 4]} !! t) ∧
         is_Some (({["A"%string := 4]} : gmap string Z) !! t)) ∧
   ¬ feasible_demand ["A"; "A"; "A"]%string {["A"%string := 4]} ∧
   ∃ st,
     Multi.heuristic ["A"; "A"; "A"]%string
       (complement_demand ["A"; "A"; "A"]%string {["A"%string := 4]})
       {["A"%string := 4]} = inr st ∧
     Multi.result st = [black; black; black] ∧
     Multi.colors st white =
       complement_demand ["A"; "A"; "A"]%string {["A"%string := 4]} ∧
     Multi.colors st black = {["A"%string := 1]}) ∧
  (complement_demand ["A"%string] {["A"%string := 1]}
     ≠ ({["A"%string := 1]} : gmap string Z) ∧
   ∃ st,
     Multi.heuristic ["A"%string] {["A"%string := 1]} {["A"%string := 1]}
       = inr st ∧
     Multi.result st = [white] ∧
     Multi.colors st white = {["A"%string := 0]} ∧
     Multi.colors st black = {["A"%string := 1]}).
Proof.
  split; [split|].
  - intros t Ht. assert (t = "A"%string) as ->.
    { repeat (apply elem_of_cons in Ht as [-> | Ht]; [done|]).
      by apply elem_of_nil in Ht. }
    split; vm_compute; by eexists.
  - split; [by apply (bool_decide_unpack _); vm_compute|].
    apply returns_with. vm_compute. repeat split; reflexivity.
  - split.
    { intros Heq. apply (f_equal (λ m, m !! "A"%string)) in Heq.
      vm_compute in Heq. discriminate Heq. }
    apply returns_with. vm_compute. repeat split; reflexivity.
Qed.

(** C10, amended. For every sequence whose types all have counters in both
    demands, the multi-demand pass is total: it raises nothing and appends
    exactly one label per position, whatever the demand. The counters it
    ends with are the demands less the painted cars. If the demands of
    some type are negative or do not add up to its occurrences, the
    returned colouring has length n but does not meet the demand. A
    counter is decremented below zero when the nonnegative demands of a
    type add up to less than its occurrences; other infeasible demands
    need not drive a counter below zero. *)
Theorem multi_heuristic_total (sequence : list string)
    (demand_white demand_black : gmap string Z) :
  (∀ t, t ∈ sequence →
        is_Some (demand_white !! t) ∧ is_Some (demand_black !! t)) →
  ∃ st,
    Multi.heuristic sequence demand_white demand_black = inr st ∧
    length (Multi.result st) = length sequence ∧
    (∀ c t, Multi.colors st c !! t =
            (λ v, v - painted sequence (Multi.result st) t c)
              <$> Multi.demand_of demand_white demand_black c !! t) ∧
    (∀ t w b, demand_white !! t = Some w → demand_black !! t = Some b →
              w < 0 ∨ b < 0 ∨ w + b ≠ count t sequence →
              ¬ meets_demand sequence demand_white demand_black
                             (Multi.result st)) ∧
    (∀ t w b, demand_white !! t = Some w → demand_black !! t = Some b →
              0 ≤ w → 0 ≤ b → w + b < count t sequence →
              ∃ c d v, Multi.demand_of demand_white demand_black c !! t
                         = Some d ∧
                       Multi.colors st c !! t = Some v ∧ v < 0 ≤ d).
Proof.
  intros Hkeys.
  destruct (MultiFacts.multi_heuristic_inv sequence demand_white demand_black Hkeys)
    as (st & Hst & [Hlen Hcol _ _]).
  exists st. split; [done|]. split; [done|]. split; [done|].
  split.
  - intros t w b Hw Hb Hbad (_ & Hmw & Hmb).
    apply Hmw in Hw. apply Hmb in Hb. cbn in Hw, Hb.
    pose proof (painted_total sequence (Multi.result st) t Hlen).
    pose proof (painted_nonneg sequence (Multi.result st) t white).
    pose proof (painted_nonneg sequence (Multi.result st) t black).
    lia.
  - intros t w b Hw Hb Hw0 Hb0 Hsum.
    pose proof (painted_total sequence (Multi.result st) t Hlen).
    destruct (decide (painted sequence (Multi.result st) t white ≤ w)).
    + exists black, b, (b - painted sequence (Multi.result st) t black).
      split; [done|]. rewrite Hcol. cbn. rewrite Hb. split; [done|]. lia.
    + exists white, w, (w - painted sequence (Multi.result st) t white).
      split; [done|]. rewrite Hcol. cbn. rewrite Hw. split; [done|]. lia.
Qed.

Lemma multi_heuristic_total_witness :
  ∃ st,
    Multi.heuristic ["A"; "A"; "A"]%string
      {["A"%string := 1]} {["A"%string := 1]} = inr st ∧
    length (Multi.result st) = length ["A"; "A"; "A"]%string.
Proof.
  destruct (multi_heuristic_total ["A"; "A"; "A"]%string
              {["A"%string := 1]} {["A"%string := 1]})
    as (st & Hst & Hlen & _).
  - intros t Ht. assert (t = "A"%string) as ->.
    { repeat (apply elem_of_cons in Ht as [-> | Ht]; [reflexivity|]).
      by apply elem_of_nil in Ht. }
    split; vm_compute; by eexists.
  - exists st. split; [exact Hst | exact Hlen].
Defined.

(** The colouring of that pass: the third A finds both counters at zero
    and is painted white all the same, leaving the white counter at -1. *)
Example heuristic_under_supplied :
  ∃ st,
    Multi.heuristic ["A"; "A"; "A"]%string
      {["A"%string := 1]} {["A"%string := 1]} = inr st ∧
    Multi.result st = [white; black; white] ∧
    Multi.colors st white !! "A"%string = Some (-1) ∧
    Multi.colors st black !! "A"%string = Some 0.
Proof. apply returns_with. vm_compute. repeat split; reflexivity. Qed.

(** ** Decimal keys *)

Lemma app_sep_inj a s1 : ∀ s2 t1 t2,
  char_free a s1 → char_free a s2 →
  s1 +:+ String a t1 = s2 +:+ String a t2 → s1 = s2 ∧ t1 = t2.
Proof.
  induction s1 as [|b s1 IH]; intros [|b' s2] t1 t2 H1 H2 Heq; cbn in *.
  - by injection Heq as ->.
  - injection Heq as -> _. by destruct H2.
  - injection Heq as -> _. by destruct H1.
  - injection Heq as -> Heq. destruct H1 as [_ H1], H2 as [_ H2].
    destruct (IH _ _ _ H1 H2 Heq) as [-> ->]. done.
Qed.

Lemma pretty_N_go_free a x : ∀ s,
  (∀ d, pretty_N_char d ≠ a) → char_free a s → char_free a (pretty_N_go x s).
Proof.
  induction (N.lt_wf_0 x) as [x _ IH]; intros s Hdigit Hs.
  assert (x = 0 ∨ 0 < x)%N as [-> | Hpos] by lia.
  - by rewrite pretty_N_go_0.
  - rewrite pretty_N_go_step by done. apply IH; [by apply N.div_lt|done|].
    split; [apply Hdigit | done].
Qed.

Lemma pretty_N_go_nonempty x : ∀ s,
  (0 < x)%N ∨ s ≠ EmptyString → pretty_N_go x s ≠ EmptyString.
Proof.
  induction (N.lt_wf_0 x) as [x _ IH]; intros s Hs.
  assert (x = 0 ∨ 0 < x)%N as [-> | Hpos] by lia.
  - rewrite pretty_N_go_0. destruct Hs as [Hs | Hs]; [lia | done].
  - rewrite pretty_N_go_step by done. apply IH; [by apply N.div_lt|].
    by right.
Qed.

Lemma pretty_nat_free a (n : nat) :
  (∀ d, pretty_N_char d ≠ a) → char_free a (pretty n).
Proof.
  intros Hdigit. unfold pretty, pretty_nat, pretty, pretty_N.
  case_decide.
  - split; [apply (Hdigit 0%N) | done].
  - by apply pretty_N_go_free.
Qed.

Lemma pretty_nat_nonempty (n : nat) : pretty n ≠ EmptyString.
Proof.
  unfold pretty, pretty_nat, pretty, pretty_N. case_decide; [done|].
  apply pretty_N_go_nonempty. left. lia.
Qed.

Lemma digit_ne_comma d : pretty_N_char d ≠ ","%char.
Proof. unfold pretty_N_char. by repeat case_match. Qed.

Lemma digit_ne_paren d : pretty_N_char d ≠ ")"%char.
Proof. unfold pretty_N_char. by repeat case_match. Qed.

(** The two key formats, spelled out. *)
Lemma key_diag (r : nat) : key r r = "(" +:+ pretty r +:+ ",)".
Proof. unfold key. by rewrite decide_True. Qed.

Lemma key_off (r c : nat) : r ≠ c → key r c = "(" +:+ pretty r +:+ "," +:+ pretty c +:+ ")".
Proof. intros. unfold key. by rewrite decide_False. Qed.

(** A singleton key and a pair key never coincide, and pair keys determine
    their indices. *)
Lemma single_ne_pair (r r' c' : nat) :
  "(" +:+ pretty r +:+ ",)" ≠ "(" +:+ pretty r' +:+ "," +:+ pretty c' +:+ ")".
Proof.
  cbn. intros [= Heq].
  apply app_sep_inj in Heq as [_ Heq];
    [|apply pretty_nat_free, digit_ne_comma..].
  pose proof (pretty_nat_nonempty c') as Hne.
  pose proof (pretty_nat_free ")" c' digit_ne_paren) as Hfree.
  destruct (pretty c') as [|b s]; [done|].
  cbn in Heq, Hfree. injection Heq as <- _. by destruct Hfree.
Qed.

Lemma single_inj (r r' : nat) :
  "(" +:+ pretty r +:+ ",)" = "(" +:+ pretty r' +:+ ",)" → r = r'.
Proof.
  cbn. intros [= Heq].
  apply app_sep_inj in Heq as [Heq _];
    [|apply pretty_nat_free, digit_ne_comma..].
  by apply (inj pretty) in Heq.
Qed.

Lemma pair_inj (r c r' c' : nat) :
  "(" +:+ pretty r +:+ "," +:+ pretty c +:+ ")" =
  "(" +:+ pretty r' +:+ "," +:+ pretty c' +:+ ")" → r = r' ∧ c = c'.
Proof.
  cbn. intros [= Heq].
  apply app_sep_inj in Heq as [Hr Hc];
    [|apply pretty_nat_free, digit_ne_comma..].
  apply app_sep_inj in Hc as [Hc _];
    [|apply pretty_nat_free, digit_ne_paren..].
  apply (inj pretty) in Hr, Hc. done.
Qed.

Lemma key_inj r c r' c' : key r c = key r' c' → r = r' ∧ c = c'.
Proof.
  destruct (decide (r = c)) as [<- | Hne], (decide (r' = c')) as [<- | Hne'];
    rewrite ?key_diag, ?key_off by done; intros Heq.
  - by apply single_inj in Heq as ->.
  - by apply single_ne_pair in Heq.
  - symmetry in Heq. by apply single_ne_pair in Heq.
  - by apply pair_inj.
Qed.

(** ** Emission of the QUBO coefficients *)

Lemma elem_of_triu_indices n r c :
  (r, c) ∈ triu_indices n ↔ (r ≤ c < n)%nat.
Proof.
  unfold triu_indices. rewrite list_elem_of_bind. split.
  - intros (r' & Hc & Hr%elem_of_seq).
    apply list_elem_of_bind in Hc as (c' & Heq & Hc%elem_of_seq).
    apply list_elem_of_singleton in Heq as [= -> ->]. lia.
  - intros Hrc. exists r. split; [|apply elem_of_seq; lia].
    apply list_elem_of_bind. exists c.
    split; [by apply list_elem_of_singleton | apply elem_of_seq; lia].
Qed.

Lemma NoDup_triu_indices n : NoDup (triu_indices n).
Proof.
  unfold triu_indices. apply NoDup_bind; [| |apply NoDup_seq].
  - intros r1 r2 [r c] _ _ H1 H2.
    apply list_elem_of_bind in H1 as (? & [= -> ->]%list_elem_of_singleton & _).
    apply list_elem_of_bind in H2 as (? & [= -> ->]%list_elem_of_singleton & _).
    done.
  - intros r _. apply NoDup_bind; [| |apply NoDup_seq].
    + intros c1 c2 [r' c] _ _ [= -> ->]%list_elem_of_singleton
        [= ->]%list_elem_of_singleton. done.
    + intros c _. apply NoDup_singleton.
Qed.

Lemma length_triu_row (r : nat) m : ∀ b,
  length (c ← seq b m; [(r, c)]) = m.
Proof.
  induction m as [|m IH]; intros b; [done|].
  cbn [seq]. rewrite bind_cons, length_app, IH. done.
Qed.

Lemma length_triu_rows k : ∀ a,
  (2 * length (r ← seq a k; c ← seq r (a + k - r); [(r, c)])
   = k * (k + 1))%nat.
Proof.
  induction k as [|k IH]; intros a; [done|].
  cbn [seq]. rewrite bind_cons, length_app, length_triu_row.
  replace (a + S k)%nat with (S a + k)%nat by lia.
  rewrite Nat.mul_add_distr_l, IH. lia.
Qed.

Lemma length_triu_indices n :
  (2 * length (triu_indices n) = n * (n + 1))%nat.
Proof. apply (length_triu_rows n 0). Qed.

Section QuboFacts.
Context {V : Type} (qubo_matrix : nat → nat → V).

(** A dictionary filled entry by entry from a list. *)
Lemma fill_lookup_Some {A} (f : A → string) (g : A → V) l k v :
  foldl (λ d a, <[f a := g a]> d) (∅ : gmap string V) l !! k = Some v →
  ∃ a, a ∈ l ∧ f a = k ∧ g a = v.
Proof.
  induction l as [|x l IH] using rev_ind; [done|].
  rewrite foldl_snoc. destruct (decide (f x = k)) as [<- | Hne].
  - rewrite lookup_insert_eq. intros [= <-].
    exists x. split; [apply elem_of_app; right; left | done].
  - rewrite lookup_insert_ne by done. intros (a & Ha & Hk)%IH.
    exists a. split; [apply elem_of_app; by left | done].
Qed.

Lemma fill_lookup_elem {A} (f : A → string) (g : A → V) l a :
  (∀ a b, a ∈ l → b ∈ l → f a = f b → a = b) → a ∈ l →
  foldl (λ d a, <[f a := g a]> d) (∅ : gmap string V) l !! f a
  = Some (g a).
Proof.
  induction l as [|x l IH] using rev_ind; intros Hinj Ha;
    [by apply elem_of_nil in Ha|].
  rewrite foldl_snoc. destruct (decide (f x = f a)) as [Heq | Hne].
  - apply Hinj in Heq as ->; [by rewrite lookup_insert_eq|..|done].
    apply elem_of_app; right; left.
  - rewrite lookup_insert_ne by done. apply IH.
    + intros b1 b2 H1 H2. apply Hinj; apply elem_of_app; by left.
    + apply elem_of_app in Ha as [Ha | ->%list_elem_of_singleton];
        done.
Qed.

Lemma fill_size {A} (f : A → string) (g : A → V) l :
  (∀ a b, a ∈ l → b ∈ l → f a = f b → a = b) → NoDup l →
  size (foldl (λ d a, <[f a := g a]> d) (∅ : gmap string V) l) = length l.
Proof.
  induction l as [|x l IH] using rev_ind; intros Hinj Hnd; [done|].
  apply NoDup_app in Hnd as (Hnd & Hx & _).
  rewrite foldl_snoc, length_app, map_size_insert_None, IH; [cbn; lia|..|done|].
  - intros b1 b2 H1 H2. apply Hinj; apply elem_of_app; by left.
  - destruct (foldl _ _ _ !! f x) as [v|] eqn:Hv; [|done].
    apply fill_lookup_Some in Hv as (a & Ha & Heq & _).
    apply Hinj in Heq as ->.
    + destruct (Hx x Ha). left.
    + apply elem_of_app; by left.
    + apply elem_of_app; right; left.
Qed.

Lemma final_qubo_lookup_Some n k v :
  final_qubo qubo_matrix n !! k = Some v →
  ∃ r c, (r ≤ c < n)%nat ∧ k = key r c ∧ v = qubo_matrix r c.
Proof.
  intros ([r c] & Hrc%elem_of_triu_indices & <- & <-)%fill_lookup_Some.
  by exists r, c.
Qed.

Lemma final_qubo_lookup n r c :
  (r ≤ c < n)%nat → final_qubo qubo_matrix n !! key r c = Some (qubo_matrix r c).
Proof.
  intros Hrc%elem_of_triu_indices. unfold final_qubo.
  apply (fill_lookup_elem (λ rc, key rc.1 rc.2)
           (λ rc, qubo_matrix rc.1 rc.2) _ (r, c)); [|done].
  intros [r1 c1] [r2 c2] _ _ Heq. cbn in Heq.
  by apply key_inj in Heq as [-> ->].
Qed.
End QuboFacts.

(** C9. Every key of [final_qubo] is either a singleton [(i,)] holding the
    diagonal (linear) coefficient of variable [i], or a pair [(i,j)] with
    [i < j] holding the coefficient of that pair; no pair key with
    [i ≥ j] occurs; and each diagonal or strictly upper-triangular entry
    of the matrix is emitted exactly once: the emitted index pairs are
    those with [i ≤ j < n], without repetition, distinct pairs get distinct
    keys, each key holds its own entry, and the dictionary has as many
    keys as there are such entries, [n (n + 1) / 2]. *)
Theorem final_qubo_keys {V : Type} (qubo_matrix : nat → nat → V) (n : nat) :
  (∀ k v, final_qubo qubo_matrix n !! k = Some v →
     (∃ i, (i < n)%nat ∧ k = "(" +:+ pretty i +:+ ",)" ∧
           v = qubo_matrix i i) ∨
     (∃ i j, (i < j < n)%nat ∧
             k = "(" +:+ pretty i +:+ "," +:+ pretty j +:+ ")" ∧
             v = qubo_matrix i j)) ∧
  (∀ i j : nat, (j ≤ i)%nat →
     final_qubo qubo_matrix n
       !! ("(" +:+ pretty i +:+ "," +:+ pretty j +:+ ")") = None) ∧
  (∀ i j, (i, j) ∈ triu_indices n ↔ (i ≤ j < n)%nat) ∧
  NoDup (triu_indices n) ∧
  NoDup ((λ rc, key rc.1 rc.2) <$> triu_indices n) ∧
  (∀ i j, (i ≤ j < n)%nat →
     final_qubo qubo_matrix n !! key i j = Some (qubo_matrix i j)) ∧
  size (final_qubo qubo_matrix n) = length (triu_indices n) ∧
  (2 * length (triu_indices n) = n * (n + 1))%nat.
Proof.
  assert (Hinj : ∀ a b : nat * nat,
    a ∈ triu_indices n → b ∈ triu_indices n →
    key a.1 a.2 = key b.1 b.2 → a = b).
  { intros [r1 c1] [r2 c2] _ _ Heq. cbn in Heq.
    by apply key_inj in Heq as [-> ->]. }
  assert (Hkeys : ∀ k v, final_qubo qubo_matrix n !! k = Some v →
     (∃ i, (i < n)%nat ∧ k = "(" +:+ pretty i +:+ ",)" ∧
           v = qubo_matrix i i) ∨
     (∃ i j, (i < j < n)%nat ∧
             k = "(" +:+ pretty i +:+ "," +:+ pretty j +:+ ")" ∧
             v = qubo_matrix i j)).
  { intros k v (r & c & Hrc & -> & ->)%final_qubo_lookup_Some.
    destruct (decide (r = c)) as [<- | Hne].
    - left. exists r. rewrite key_diag. split; [lia|done].
    - right. exists r, c. rewrite key_off by done. split; [lia|done]. }
  split; [exact Hkeys|]. split.
  - intros i j Hji.
    destruct (final_qubo qubo_matrix n !! _) as [v|] eqn:Hv; [|done].
    apply Hkeys in Hv as [(i' & _ & Heq & _) | (i' & j' & Hlt & Heq & _)].
    + symmetry in Heq. by apply single_ne_pair in Heq.
    + apply pair_inj in Heq as [-> ->]. lia.
  - split; [apply elem_of_triu_indices|].
    split; [apply NoDup_triu_indices|]. split.
    { apply NoDup_fmap_2_strong; [done | apply NoDup_triu_indices]. }
    split; [apply final_qubo_lookup|]. split.
    + apply fill_size; [done | apply NoDup_triu_indices].
    + apply length_triu_indices.
Qed.

(** The dictionary emitted for a 3 × 3 matrix. *)
Example final_qubo_3 :
  final_qubo (λ r c, (r, c)) 3 =
  {[ "(0,)"%string := (0, 0)%nat; "(0,1)"%string := (0, 1)%nat;
     "(0,2)"%string := (0, 2)%nat; "(1,)"%string := (1, 1)%nat;
     "(1,2)"%string := (1, 2)%nat; "(2,)"%string := (2, 2)%nat ]}.
Proof. vm_compute. reflexivity. Qed.

(** ** Validation of the demand *)

(** C7. [validate] fails with [Infeasible] exactly when some type's
    requested black count is negative or exceeds that type's occurrence
    count, or when the types of demand and instance differ; it fails in no
    other way; and for the sequence [A,A,A] with demand [{A: black = 4}] it
    returns [Infeasible]. *)
Theorem validate_infeasible_iff :
  (∀ instance demand,
     validate instance demand = inl Infeasible ↔
     (∃ t b, demand !! t = Some b ∧ (b < 0 ∨ count t instance < b)) ∨
     dom demand ≠ types_of instance) ∧
  (∀ instance demand e, validate instance demand = inl e → e = Infeasible) ∧
  validate ["A"; "A"; "A"]%string {["A"%string := 4]} = inl Infeasible.
Proof.
  split; [|split].
  - intros instance demand. unfold validate, feasible_demand.
    case_decide as Hf; split.
    + done.
    + destruct Hf as [Hdom Hall]. intros [(t & b & Hb & Hbad) | Hne]; [|done].
      apply Hall in Hb. cbn in Hb. lia.
    + intros _. destruct (decide (dom demand = types_of instance)) as [Hdom|];
        [|by right].
      left. destruct (decide (map_Forall (λ t b, 0 ≤ b ≤ count t instance) demand))
        as [Hall | Hnall]; [by destruct Hf|].
      apply map_not_Forall in Hnall; [|apply _].
      destruct Hnall as (t & b & Hb & Hbad). exists t, b. split; [done|lia].
    + done.
  - intros instance demand e. unfold validate. case_decide; congruence.
  - by vm_compute.
Qed.

(** The demand the notebook constructs, black as the complement of a white
    demand drawn between 0 and the occurrence count of each type of the
    sequence, always passes the check, and the complement of that black
    demand is the white demand again. *)
Lemma constructed_demand_feasible sequence demand_white :
  dom demand_white = types_of sequence →
  map_Forall (λ t w, 0 ≤ w ≤ count t sequence) demand_white →
  feasible_demand sequence (complement_demand sequence demand_white) ∧
  complement_demand sequence (complement_demand sequence demand_white)
  = demand_white.
Proof.
  intros Hdom Hall. split; [split|].
  - rewrite <- Hdom. apply set_eq. intros t.
    rewrite !elem_of_dom, lookup_complement_demand, fmap_is_Some. done.
  - intros t b. rewrite lookup_complement_demand.
    destruct (demand_white !! t) as [w|] eqn:Hw; [|done].
    intros [= <-]. apply Hall in Hw. cbn in Hw. lia.
  - apply map_eq. intros t. rewrite !lookup_complement_demand.
    destruct (demand_white !! t); cbn; [f_equal; lia | done].
Qed.

(** ** The empty instance *)



(** * Further properties of the passes *)

(** ** The counter pass on the demand the notebook draws *)

(** The pass on a white demand drawn within range and its complement:
    never out of capacity. *)
Lemma constructed_demand_run sequence (dw : gmap string Z) :
  (∀ t, t ∈ sequence → is_Some (dw !! t)) →
  map_Forall (λ t w, 0 ≤ w ≤ count t sequence) dw →
  ∃ st,
    Multi.heuristic sequence dw (complement_demand sequence dw) = inr st ∧
    MultiInv.inv (Multi.demand_of dw (complement_demand sequence dw))
                 sequence st ∧
    MultiInv.within_demand (Multi.demand_of dw (complement_demand sequence dw))
                           sequence st.
Proof.
  intros Hkeys Hrange.
  apply (MultiFacts.multi_within_demand_run _ sequence []).
  - apply MultiFacts.multi_inv_init.
  - intros c t d Hd. rewrite painted_nil. destruct c; cbn in Hd.
    + apply Hrange in Hd. cbn in Hd. lia.
    + rewrite lookup_complement_demand in Hd.
      destruct (dw !! t) as [w|] eqn:Hw; [|done].
      injection Hd as <-. apply Hrange in Hw. cbn in Hw. lia.
  - intros t Ht. destruct (Hkeys t Ht) as [w Hw].
    exists w, (count t sequence - w). cbn.
    rewrite lookup_complement_demand, Hw. cbn. split; [done|].
    split; [done|]. lia.
Qed.

(** X1. The data cell and the counter pass together: for every sequence
    drawn from [types] and every white demand over [types] drawn between 0
    and the occurrence count of its type, black being the complement, the
    pass raises nothing, labels every position, and paints of every type of
    [types] exactly its white demand white and its black demand black; a
    type of [types] that does not occur in the sequence has both demands 0
    and no car. *)
Theorem drawn_demand_conserved (types : gset string) (sequence : list string)
    (demand_white : gmap string Z) :
  types_of sequence ⊆ types →
  dom demand_white = types →
  map_Forall (λ t w, 0 ≤ w ≤ count t sequence) demand_white →
  ∃ st,
    Multi.heuristic sequence demand_white
      (complement_demand sequence demand_white) = inr st ∧
    length (Multi.result st) = length sequence ∧
    ∀ t, t ∈ types →
      ∃ w b, demand_white !! t = Some w ∧
             complement_demand sequence demand_white !! t = Some b ∧
             w + b = count t sequence ∧
             painted sequence (Multi.result st) t white = w ∧
             painted sequence (Multi.result st) t black = b.
Proof.
  intros Hsub Hdom Hrange.
  destruct (constructed_demand_run sequence demand_white)
    as (st & Hst & Hinv & Hwithin); [|done|].
  { intros t Ht. apply elem_of_dom. rewrite Hdom. apply Hsub.
    by apply elem_of_list_to_set. }
  exists st. split; [done|].
  pose proof (MultiInv.inv_length _ _ _ Hinv) as Hlen. split; [done|].
  intros t Ht. rewrite <- Hdom in Ht. apply elem_of_dom in Ht as [w Hw].
  exists w, (count t sequence - w).
  rewrite lookup_complement_demand, Hw. cbn. split; [done|]. split; [done|].
  split; [lia|].
  pose proof (painted_total sequence (Multi.result st) t Hlen).
  pose proof (Hwithin white t w Hw) as Hwle.
  pose proof (Hwithin black t (count t sequence - w)) as Hble. cbn in Hble.
  rewrite lookup_complement_demand, Hw in Hble. specialize (Hble eq_refl).
  lia.
Qed.

Lemma drawn_demand_conserved_witness :
  ∃ st,
    Multi.heuristic ["B"; "A"; "B"]%string
      {["A"%string := 0; "B"%string := 1; "C"%string := 0]}
      (complement_demand ["B"; "A"; "B"]%string
         {["A"%string := 0; "B"%string := 1; "C"%string := 0]}) = inr st ∧
    length (Multi.result st) = length ["B"; "A"; "B"]%string.
Proof.
  destruct (drawn_demand_conserved
              {["A"; "B"; "C"]}%string ["B"; "A"; "B"]%string
              {["A"%string := 0; "B"%string := 1; "C"%string := 0]})
    as (st & Hst & Hlen & _).
  - apply (bool_decide_unpack _). vm_compute. exact I.
  - apply (bool_decide_unpack _). vm_compute. exact I.
  - apply (bool_decide_unpack _). vm_compute. exact I.
  - exists st. split; [exact Hst | exact Hlen].
Defined.

(** ** The exact formulation on assignments *)

(** X4. The objective does not tell the two colours apart: exchanging them
    in any assignment leaves its value unchanged. *)
Theorem obj_swap_levels (X : list Z) : obj (swap_levels X) = obj X.
Proof.
  unfold swap_levels.
  induction X as [|x [|y X] IH]; [done..|].
  rewrite !fmap_cons, obj_cons2. rewrite fmap_cons in IH. rewrite IH, obj_cons2.
  f_equal. unfold sqr. ring.
Qed.

(** X5. On a binary assignment the objective lies between 0 and the
    number of adjacent pairs. *)
Theorem obj_binary_bounds (X : list Z) :
  Forall (λ x, x = 0 ∨ x = 1) X →
  0 ≤ obj X ≤ Z.of_nat (length X - 1).
Proof.
  induction X as [|x [|y X] IH]; intros HX; [done..|].
  apply Forall_cons in HX as [Hx HX].
  pose proof HX as [Hy _]%Forall_cons.
  specialize (IH HX). rewrite obj_cons2, sqr_binary by done.
  cbn [length] in *. case_decide; lia.
Qed.

Lemma obj_binary_bounds_witness :
  0 ≤ obj [0; 1; 1; 0] ≤ Z.of_nat (length [0; 1; 1; 0] - 1).
Proof.
  apply (obj_binary_bounds [0; 1; 1; 0]). repeat constructor; lia.
Defined.

(** ** The binary model *)

Section ContainerFacts.
Context (canon : string → string).

Lemma IJ_records_cons car sequence :
  IJ_records (car :: sequence) =
  (1%nat, car) :: ((λ r, (S r.1, r.2)) <$> IJ_records sequence).
Proof.
  unfold IJ_records. rewrite imap_cons. f_equal.
  rewrite fmap_imap. by apply imap_ext.
Qed.

Lemma IJ_records_types sequence : (IJ_records sequence).*2 = sequence.
Proof.
  unfold IJ_records. rewrite fmap_imap.
  induction sequence as [|x l IH] using rev_ind; [done|].
  rewrite imap_app, IH. done.
Qed.

Lemma type_sum_cons car sequence x X j :
  type_sum canon (IJ_records (car :: sequence)) (x :: X) j =
  (if decide (canon car = j) then x else 0)
  + type_sum canon (IJ_records sequence) X j.
Proof.
  assert (Htl : (λ r : nat * string, X_at (x :: X) r.1)
                  <$> filter (λ r, canon r.2 = j)
                        ((λ r, (S r.1, r.2)) <$> IJ_records sequence)
              = (λ r : nat * string, X_at X r.1)
                  <$> filter (λ r, canon r.2 = j) (IJ_records sequence)).
  { rewrite filter_fmap_comp, <- list_fmap_compose.
    rewrite (filter_ext_elem (_ ∘ _) (λ r : nat * string, canon r.2 = j))
      by (intros [? ?] _; done).
    apply list_fmap_ext. intros i [k t] Hk. unfold compose, X_at. cbn [fst].
    apply list_elem_of_lookup_2, list_elem_of_filter in Hk as [_ Hk].
    apply list_elem_of_lookup in Hk as [i' Hk]. unfold IJ_records in Hk.
    rewrite list_lookup_imap in Hk.
    destruct (sequence !! i'); [|done]. injection Hk as <- _.
    by rewrite !Nat.sub_succ, !Nat.sub_0_r. }
  rewrite IJ_records_cons. unfold type_sum.
  destruct (decide (canon car = j)) as [Heq | Hne].
  - rewrite filter_cons_True by done. rewrite fmap_cons. cbn [foldr].
    rewrite Htl. done.
  - rewrite filter_cons_False by done. rewrite Htl. lia.
Qed.

(** When no other type of the sequence shares the label of [t], the sum
    of an equation counts the black cars of type [t]. *)
Lemma type_sum_levels sequence : ∀ coloring t,
  length coloring = length sequence →
  (∀ t', t' ∈ sequence → canon t' = canon t → t' = t) →
  type_sum canon (IJ_records sequence) (level <$> coloring) (canon t)
  = painted sequence coloring t black.
Proof.
  induction sequence as [|car sequence IH]; intros [|c coloring] t Hlen Hinj;
    try done.
  rewrite fmap_cons, type_sum_cons, painted_cons, IH;
    [|cbn in Hlen; lia|intros t' Ht'; apply Hinj; by right].
  destruct (decide (canon car = canon t)) as [Heq | Hne].
  - apply Hinj in Heq as ->; [|left]. destruct c; cbn.
    + rewrite decide_False by (intros [_ ?]; done). done.
    + rewrite decide_True by done. done.
  - rewrite decide_False by (intros [-> _]; done). done.
Qed.

Lemma type_sum_swap sequence : ∀ X t,
  length X = length sequence →
  (∀ t', t' ∈ sequence → canon t' = canon t → t' = t) →
  type_sum canon (IJ_records sequence) (swap_levels X) (canon t) =
  count t sequence - type_sum canon (IJ_records sequence) X (canon t).
Proof.
  induction sequence as [|car sequence IH]; intros [|x X] t Hlen Hinj;
    try done.
  unfold swap_levels in *. rewrite fmap_cons, !type_sum_cons, count_cons.
  rewrite IH; [|cbn in Hlen; lia|intros t' Ht'; apply Hinj; by right].
  destruct (decide (canon car = canon t)) as [Heq | Hne].
  - apply Hinj in Heq as ->; [|left]. rewrite decide_True by done. lia.
  - rewrite decide_False by (intros ->; done). lia.
Qed.

End ContainerFacts.

(** X7. The binary model and the implicit demand agree: when the car
    types of the sequence denote pairwise distinct labels, the formulation
    cell succeeds and every type occurs exactly twice, the levels of a
    colouring with one label per position satisfy every [BlackOnce]
    equation exactly when the colouring has one white and one black car of
    each type; and the [BlackOnce] equations hold for an assignment
    exactly when they hold for the colour-swapped one. *)
Theorem BlackOnce_binary_demand (canon : string → string)
    (valid_label : string → bool) (sequence : list string)
    (cs : ConstraintSystem) :
  (∀ t t', t ∈ sequence → t' ∈ sequence → canon t = canon t' → t = t') →
  every_type_twice sequence →
  build canon valid_label sequence = inr cs →
  (∀ coloring, length coloring = length sequence →
     BlackOnce canon cs (level <$> coloring) ↔
     meets_demand sequence (binary_demand sequence) (binary_demand sequence)
                  coloring) ∧
  (∀ X, length X = length sequence →
     BlackOnce canon cs X ↔ BlackOnce canon cs (swap_levels X)).
Proof.
  intros Hinj Htwice Hcs. unfold build in Hcs.
  destruct (forallb valid_label sequence); [|done]. injection Hcs as <-.
  unfold BlackOnce, set_Forall. cbn [IJ j_set]. rewrite IJ_records_types.
  assert (Hcnt : ∀ t, t ∈ sequence → count t sequence = 2).
  { intros t Ht. apply (proj1 (Forall_forall _ _) Htwice t Ht). }
  assert (Hone : ∀ t, t ∈ sequence →
            ∀ t', t' ∈ sequence → canon t' = canon t → t' = t).
  { intros t Ht t' Ht' Heq. by apply Hinj. }
  assert (Hlabel : ∀ j, j ∈ (list_to_set (canon <$> sequence) : gset string) ↔
            ∃ t, t ∈ sequence ∧ j = canon t).
  { intros j. rewrite elem_of_list_to_set, list_elem_of_fmap.
    split; intros (t & Ha & Hb); exists t; done. }
  split.
  - intros coloring Hlen. unfold meets_demand, binary_demand. split.
    + intros H. split; [done|].
      assert (Hb : ∀ t, t ∈ sequence → painted sequence coloring t black = 1).
      { intros t Ht. rewrite <- (type_sum_levels canon) by auto.
        apply H, Hlabel. by exists t. }
      split; intros t v [Ht%elem_of_list_to_set <-]%lookup_gset_to_gmap_Some;
        pose proof (Hb t Ht); pose proof (Hcnt t Ht);
        pose proof (painted_total sequence coloring t Hlen); lia.
    + intros (_ & _ & Hb) j (t & Ht & ->)%Hlabel.
      rewrite type_sum_levels by auto.
      apply (Hb t 1), lookup_gset_to_gmap_Some.
      split; [by apply elem_of_list_to_set | done].
  - intros X Hlen.
    split; intros H j (t & Ht & ->)%Hlabel;
      assert (Hj : canon t ∈ (list_to_set (canon <$> sequence) : gset string))
        by (apply Hlabel; by exists t);
      specialize (H _ Hj); pose proof (Hcnt t Ht);
      rewrite type_sum_swap in * by auto; lia.
Qed.

Lemma BlackOnce_binary_demand_witness :
  BlackOnce (λ t, t)
    {| IJ := IJ_records ["A"; "B"; "B"; "A"]%string;
       i_set := (IJ_records ["A"; "B"; "B"; "A"]%string).*1;
       j_set := list_to_set ((λ t, t) <$> (IJ_records ["A"; "B"; "B"; "A"]%string).*2) |}
    [0; 0; 1; 1] ↔
  BlackOnce (λ t, t)
    {| IJ := IJ_records ["A"; "B"; "B"; "A"]%string;
       i_set := (IJ_records ["A"; "B"; "B"; "A"]%string).*1;
       j_set := list_to_set ((λ t, t) <$> (IJ_records ["A"; "B"; "B"; "A"]%string).*2) |}
    (swap_levels [0; 0; 1; 1]).
Proof.
  refine (proj2 (BlackOnce_binary_demand (λ t, t) (λ _, true)
                   ["A"; "B"; "B"; "A"]%string _ _ _ _) [0; 0; 1; 1] _).
  - intros t t' _ _ Heq. exact Heq.
  - apply (bool_decide_unpack _). vm_compute. exact I.
  - reflexivity.
  - reflexivity.
Defined.

(** ** The set-based pass on arbitrary sequences *)

Lemma binary_step_spec (st : Binary.state) (car : string) :
  Binary.result (Binary.step st car) =
    Binary.result st ++ [Binary.current_color (Binary.step st car)] ∧
  Binary.current_color (Binary.step st car) =
    (if decide (car ∈ Binary.colors st (Binary.current_color st))
     then flip (Binary.current_color st) else Binary.current_color st) ∧
  Binary.changes (Binary.step st car) =
    Binary.changes st +
    (if decide (car ∈ Binary.colors st (Binary.current_color st))
     then 1 else 0).
Proof. unfold Binary.step. case_decide; cbn; repeat split; lia. Qed.

Lemma binary_run_app st l1 l2 :
  Binary.run st (l1 ++ l2) = Binary.run (Binary.run st l1) l2.
Proof. apply foldl_app. Qed.

Lemma binary_run_result sequence : ∀ st,
  ∃ k, Binary.result (Binary.run st sequence) = Binary.result st ++ k ∧
       length k = length sequence.
Proof.
  induction sequence as [|car rest IH]; intros st.
  - exists []. by rewrite app_nil_r.
  - destruct (IH (Binary.step st car)) as (k & Hk & Hlen).
    destruct (binary_step_spec st car) as (Hres & _).
    eexists (_ :: k). cbn [Binary.run foldl].
    unfold Binary.run in Hk. rewrite Hk, Hres, <- app_assoc.
    split; [done|]. cbn. lia.
Qed.

Lemma both_colors_step pre st car :
  BinaryInv.inv pre st → both_colors pre st →
  both_colors (pre ++ [car]) (Binary.step st car).
Proof.
  intros [Hlen Hcol _ _ _] Hboth t c.
  destruct (binary_step_spec st car) as (Hres & Hcur & _).
  rewrite Hres, count_snoc, painted_snoc by done. rewrite Hcur. clear Hres Hcur.
  pose proof (painted_total pre (Binary.result st) t Hlen) as Htot.
  pose proof (painted_nonneg pre (Binary.result st) t white).
  pose proof (painted_nonneg pre (Binary.result st) t black).
  pose proof (Hboth t c) as Hc.
  destruct (decide (car = t)) as [-> | Hne].
  - intros Hcnt. destruct (decide (2 ≤ count t pre)) as [H2 | H2].
    { specialize (Hc H2). case_decide; lia. }
    assert (count t pre = 1) as Hone by lia.
    pose proof (Hcol t (Binary.current_color st)) as Hin.
    destruct (decide (t ∈ Binary.colors st (Binary.current_color st)))
      as [Hyes | Hno].
    + apply Hin in Hyes.
      destruct (Binary.current_color st), c; cbn [flip];
        repeat case_decide; try lia;
        repeat match goal with H : ¬ (_ ∧ _) |- _ => exfalso; apply H; done end.
    + assert (painted pre (Binary.result st) t (Binary.current_color st) = 0)
        as Hzero.
      { destruct (decide (0 < painted pre (Binary.result st) t
                               (Binary.current_color st))) as [Hp|Hp];
          [by apply Hin in Hp|].
        destruct (Binary.current_color st); lia. }
      destruct (Binary.current_color st), c;
        repeat case_decide; try lia;
        repeat match goal with H : ¬ (_ ∧ _) |- _ => exfalso; apply H; done end.
  - intros Hcnt. rewrite decide_False by tauto.
    assert (2 ≤ count t pre) as H2 by lia. specialize (Hc H2). lia.
Qed.

Lemma both_colors_run rest : ∀ pre st,
  BinaryInv.inv pre st → both_colors pre st →
  both_colors (pre ++ rest) (Binary.run st rest).
Proof.
  induction rest as [|car rest IH]; intros pre st Hinv Hboth; cbn.
  - by rewrite app_nil_r.
  - rewrite cons_middle, app_assoc.
    apply IH; [by apply BinaryFacts.binary_inv_step|by apply both_colors_step].
Qed.

(** X8. On any sequence the set-based pass paints every type that occurs
    at least twice in both colours; a type that occurs exactly twice gets
    one white and one black car, whatever the other types do. *)
Theorem binary_heuristic_per_type (sequence : list string) (t : string) :
  (2 ≤ count t sequence →
     1 ≤ painted sequence (Binary.result (Binary.heuristic sequence)) t white ∧
     1 ≤ painted sequence (Binary.result (Binary.heuristic sequence)) t black) ∧
  (count t sequence = 2 →
     painted sequence (Binary.result (Binary.heuristic sequence)) t white = 1 ∧
     painted sequence (Binary.result (Binary.heuristic sequence)) t black = 1).
Proof.
  pose proof (both_colors_run sequence [] Binary.init) as Hboth.
  cbn [app] in Hboth. fold (Binary.heuristic sequence) in Hboth.
  specialize (Hboth BinaryFacts.binary_inv_init).
  assert (Hb : both_colors sequence (Binary.heuristic sequence)).
  { apply Hboth. intros t' c Hc. assert (count t' [] = 0) by done. lia. }
  pose proof (painted_total sequence _ t
                (BinaryFacts.binary_heuristic_length sequence)) as Htot.
  split; intros Hcnt.
  - split; apply Hb; lia.
  - pose proof (Hb t white). pose proof (Hb t black). lia.
Qed.

(** X9. On any sequence the set-based pass labels every position, starts
    with white, reports as [changes] exactly the switch count of the
    colouring it returns, and ends with [current_color] the last label. *)
Theorem binary_heuristic_report (sequence : list string) :
  length (Binary.result (Binary.heuristic sequence)) = length sequence ∧
  Binary.changes (Binary.heuristic sequence)
    = switches (Binary.result (Binary.heuristic sequence)) ∧
  (∀ car rest, sequence = car :: rest →
     head (Binary.result (Binary.heuristic sequence)) = Some white) ∧
  Binary.current_color (Binary.heuristic sequence)
    = default white (last (Binary.result (Binary.heuristic sequence))).
Proof.
  destruct (BinaryFacts.binary_inv_heuristic sequence) as [Hlen _ Hcur Hchg _].
  split; [done|]. split; [done|]. split; [|done].
  intros car rest ->. unfold Binary.heuristic. cbn [Binary.run foldl].
  destruct (binary_run_result rest (Binary.step Binary.init car)) as (k & Hk & _).
  unfold Binary.run in Hk. rewrite Hk. done.
Qed.

(** X10. The set-based pass never revises a label: the colouring of a
    prefix of the sequence is the prefix of the colouring of the whole. *)
Theorem binary_heuristic_prefix (pre rest : list string) :
  Binary.result (Binary.heuristic pre) =
  take (length pre) (Binary.result (Binary.heuristic (pre ++ rest))).
Proof.
  unfold Binary.heuristic. rewrite binary_run_app.
  destruct (binary_run_result rest (Binary.run Binary.init pre)) as (k & Hk & _).
  rewrite Hk.
  pose proof (BinaryFacts.binary_heuristic_length pre) as Hlen.
  unfold Binary.heuristic in Hlen.
  rewrite take_app_length'; done.
Qed.

(** ** The counter pass, position by position *)

Lemma multi_run_app st l1 : ∀ l2,
  Multi.run st (l1 ++ l2) =
  match Multi.run st l1 with
  | inl e => inl e
  | inr st' => Multi.run st' l2
  end.
Proof.
  revert st. induction l1 as [|car l1 IH]; intros st l2; [done|].
  cbn [app Multi.run]. unfold bind.
  destruct (Multi.step st car) as [e | st']; [done|]. apply IH.
Qed.

Lemma multi_run_result sequence : ∀ st st',
  Multi.run st sequence = inr st' →
  ∃ k, Multi.result st' = Multi.result st ++ k ∧ length k = length sequence.
Proof.
  induction sequence as [|car rest IH]; intros st st' Hrun.
  - injection Hrun as <-. exists []. by rewrite app_nil_r.
  - cbn [Multi.run] in Hrun. unfold bind in Hrun.
    destruct (Multi.step st car) as [e | st1] eqn:Hstep; [done|].
    destruct (IH _ _ Hrun) as (k & Hk & Hlen).
    assert (∃ c, Multi.result st1 = Multi.result st ++ [c]) as [c Hc].
    { unfold Multi.step, Multi.paint_car, getitem, bind, ret, raise in Hstep.
      repeat (case_match; simplify_eq/=); by eexists. }
    exists (c :: k). rewrite Hk, Hc, <- app_assoc. split; [done|]. cbn. lia.
Qed.

(** The pass split at a position: the state when the car arrives, the
    test it makes, and the label it appends. *)
Lemma multi_heuristic_at dw db pre car rest st :
  (∀ t, t ∈ pre ++ car :: rest → is_Some (dw !! t) ∧ is_Some (db !! t)) →
  Multi.heuristic (pre ++ car :: rest) dw db = inr st →
  ∃ st0 st1 v,
    Multi.heuristic pre dw db = inr st0 ∧
    MultiInv.inv (Multi.demand_of dw db) pre st0 ∧
    Multi.step st0 car = inr st1 ∧
    Multi.colors st0 (Multi.current_color st0) !! car = Some v ∧
    Multi.current_color st1 =
      (if decide (v > 0) then Multi.current_color st0
       else flip (Multi.current_color st0)) ∧
    Multi.result st0 = take (length pre) (Multi.result st) ∧
    Multi.result st !! length pre = Some (Multi.current_color st1).
Proof.
  intros Hkeys Hst.
  destruct (MultiFacts.multi_heuristic_inv pre dw db) as (st0 & Hst0 & Hinv0).
  { intros t Ht. apply Hkeys, elem_of_app. by left. }
  destruct (Hkeys car) as [Hw Hb]; [apply elem_of_app; right; left|].
  destruct (MultiFacts.multi_inv_step _ pre st0 car Hinv0 Hw Hb)
    as (st1 & v & Hstep & Hinv1 & Hv & Hcur & Hres).
  unfold Multi.heuristic in Hst, Hst0.
  rewrite multi_run_app, Hst0 in Hst. cbn [Multi.run] in Hst.
  rewrite Hstep in Hst. cbn in Hst.
  destruct (multi_run_result rest st1 st Hst) as (k & Hk & _).
  pose proof (MultiInv.inv_length _ _ _ Hinv0) as Hlen.
  exists st0, st1, v. split; [exact Hst0|]. split; [exact Hinv0|].
  split; [exact Hstep|]. split; [exact Hv|]. split; [exact Hcur|]. split.
  - rewrite Hk, Hres, <- app_assoc, take_app_length'; done.
  - rewrite Hk, Hres, <- app_assoc, lookup_app_r by lia.
    by rewrite Hlen, Nat.sub_diag.
Qed.

(** X11. The counter pass never revises a label either: when every type
    has its counters, the pass on a prefix of the sequence succeeds and
    returns the prefix of the colouring of the whole. *)
Theorem multi_heuristic_prefix (demand_white demand_black : gmap string Z)
    (pre rest : list string) (st : Multi.state) :
  (∀ t, t ∈ pre ++ rest →
        is_Some (demand_white !! t) ∧ is_Some (demand_black !! t)) →
  Multi.heuristic (pre ++ rest) demand_white demand_black = inr st →
  ∃ st0,
    Multi.heuristic pre demand_white demand_black = inr st0 ∧
    Multi.result st0 = take (length pre) (Multi.result st).
Proof.
  intros Hkeys Hst.
  destruct (MultiFacts.multi_heuristic_inv pre demand_white demand_black)
    as (st0 & Hst0 & Hinv0).
  { intros t Ht. apply Hkeys, elem_of_app. by left. }
  exists st0. split; [done|].
  unfold Multi.heuristic in Hst, Hst0. rewrite multi_run_app, Hst0 in Hst.
  destruct (multi_run_result rest st0 st Hst) as (k & Hk & _).
  rewrite Hk, take_app_length'; [done|]. symmetry. apply Hinv0.
Qed.

Lemma AB_keys (l : list string) (dw db : gmap string Z) :
  Forall (λ t, t = "A"%string ∨ t = "B"%string) l →
  is_Some (dw !! "A"%string) → is_Some (db !! "A"%string) →
  is_Some (dw !! "B"%string) → is_Some (db !! "B"%string) →
  ∀ t, t ∈ l → is_Some (dw !! t) ∧ is_Some (db !! t).
Proof.
  intros Hl ? ? ? ? t Ht.
  destruct (proj1 (Forall_forall _ _) Hl t Ht) as [-> | ->]; done.
Qed.

Lemma multi_heuristic_prefix_witness :
  ∃ st0,
    Multi.heuristic ["A"; "B"]%string
      {["A"%string := 1; "B"%string := 0]}
      {["A"%string := 1; "B"%string := 1]} = inr st0.
Proof.
  assert (Hkeys : ∀ t, t ∈ ["A"; "B"]%string ++ ["A"%string] →
            is_Some (({["A"%string := 1; "B"%string := 0]} : gmap string Z) !! t) ∧
            is_Some (({["A"%string := 1; "B"%string := 1]} : gmap string Z) !! t)).
  { apply AB_keys; [repeat constructor; tauto|..]; vm_compute; by eexists. }
  destruct (MultiFacts.multi_heuristic_inv _ _ _ Hkeys) as (st & Hst & _).
  destruct (multi_heuristic_prefix _ _ _ _ st Hkeys Hst) as (st0 & Hst0 & _).
  exists st0. exact Hst0.
Defined.

(** X12. The counter pass is greedy position by position: when every type
    has its counters, the car at any position keeps the colour in use when
    it arrives (white at the first position, else the label of the
    previous car) exactly when fewer cars of its type have been painted in
    that colour so far than that colour's demand; otherwise it gets the
    other colour. *)
Theorem multi_heuristic_greedy (demand_white demand_black : gmap string Z)
    (pre : list string) (car : string) (rest : list string)
    (st : Multi.state) :
  (∀ t, t ∈ pre ++ car :: rest →
        is_Some (demand_white !! t) ∧ is_Some (demand_black !! t)) →
  Multi.heuristic (pre ++ car :: rest) demand_white demand_black = inr st →
  ∃ c d,
    let before := take (length pre) (Multi.result st) in
    let in_use := default white (last before) in
    Multi.result st !! length pre = Some c ∧
    Multi.demand_of demand_white demand_black in_use !! car = Some d ∧
    (painted pre before car in_use < d → c = in_use) ∧
    (d ≤ painted pre before car in_use → c = flip in_use).
Proof.
  intros Hkeys Hst.
  destruct (multi_heuristic_at _ _ _ _ _ _ Hkeys Hst)
    as (st0 & st1 & v & _ & Hinv0 & _ & Hv & Hcur & Htake & Hlook).
  destruct Hinv0 as [Hlen Hcol Hcur0 _].
  rewrite Hcol in Hv.
  destruct (Multi.demand_of demand_white demand_black
              (Multi.current_color st0) !! car) as [d|] eqn:Hd; [|done].
  injection Hv as <-.
  exists (Multi.current_color st1), d. cbn zeta.
  rewrite <- Htake, <- Hcur0. split; [done|]. split; [done|].
  rewrite Hcur. split; intros Hp; case_decide; (done || lia).
Qed.

Lemma multi_heuristic_greedy_witness :
  ∃ c, ∃ st,
    Multi.heuristic (["A"; "B"]%string ++ "A"%string :: [])
      {["A"%string := 1; "B"%string := 0]}
      {["A"%string := 1; "B"%string := 1]} = inr st ∧
    Multi.result st !! length ["A"; "B"]%string = Some c.
Proof.
  assert (Hkeys : ∀ t, t ∈ ["A"; "B"]%string ++ "A"%string :: [] →
            is_Some (({["A"%string := 1; "B"%string := 0]} : gmap string Z) !! t) ∧
            is_Some (({["A"%string := 1; "B"%string := 1]} : gmap string Z) !! t)).
  { apply AB_keys; [repeat constructor; tauto|..]; vm_compute; by eexists. }
  destruct (MultiFacts.multi_heuristic_inv _ _ _ Hkeys) as (st & Hst & _).
  destruct (multi_heuristic_greedy _ _ _ _ _ st Hkeys Hst)
    as (c & d & Hc & _).
  exists c, st. split; [exact Hst | exact Hc].
Defined.

(** X13. A car type without counters stops the pass: when the types before
    it all have their counters and the type of a car is missing from both
    demands, the pass raises [KeyError] for that type and returns no
    colouring, whatever follows. *)
Theorem multi_heuristic_missing_type (demand_white demand_black : gmap string Z)
    (pre : list string) (car : string) (rest : list string) :
  (∀ t, t ∈ pre →
        is_Some (demand_white !! t) ∧ is_Some (demand_black !! t)) →
  demand_white !! car = None → demand_black !! car = None →
  Multi.heuristic (pre ++ car :: rest) demand_white demand_black
  = inl (KeyError car).
Proof.
  intros Hkeys Hw Hb.
  destruct (MultiFacts.multi_heuristic_inv pre demand_white demand_black Hkeys)
    as (st0 & Hst0 & [_ Hcol _ _]).
  unfold Multi.heuristic in *. rewrite multi_run_app, Hst0.
  cbn [Multi.run]. unfold Multi.step, getitem, bind.
  rewrite Hcol. destruct (Multi.current_color st0); cbn;
    rewrite ?Hw, ?Hb; done.
Qed.

Lemma multi_heuristic_missing_type_witness :
  Multi.heuristic (["A"%string] ++ "C"%string :: ["A"%string])
    {["A"%string := 1]} {["A"%string := 1]} = inl (KeyError "C"%string).
Proof.
  apply multi_heuristic_missing_type; [|reflexivity|reflexivity].
  intros t Ht. apply list_elem_of_singleton in Ht. subst t.
  split; vm_compute; by eexists.
Defined.

(** X14. What the counter pass reports: when every type has its counters,
    [changes] is the switch count of the returned colouring if the first
    car has white demand left (or the sequence is empty), and one more if
    the white demand of the first car's type is zero or negative, in which
    case the first label is black. *)
Theorem multi_heuristic_report (demand_white demand_black : gmap string Z)
    (sequence : list string) (st : Multi.state) :
  (∀ t, t ∈ sequence →
        is_Some (demand_white !! t) ∧ is_Some (demand_black !! t)) →
  Multi.heuristic sequence demand_white demand_black = inr st →
  match sequence with
  | [] => Multi.result st = [] ∧ Multi.changes st = 0
  | car :: _ =>
      ∃ w, demand_white !! car = Some w ∧
           head (Multi.result st) = Some (if decide (0 < w) then white else black) ∧
           Multi.changes st =
             switches (Multi.result st) + (if decide (0 < w) then 0 else 1)
  end.
Proof.
  intros Hkeys Hst. destruct sequence as [|car rest].
  - injection Hst as <-. done.
  - destruct (multi_heuristic_at demand_white demand_black [] car rest st
                Hkeys Hst)
      as (st0 & st1 & v & Hst0 & _ & _ & Hv & Hcur & _ & Hlook).
    injection Hst0 as <-. cbn in Hv, Hcur, Hlook.
    exists v. split; [done|].
    assert (Hhead : head (Multi.result st)
              = Some (if decide (0 < v) then white else black)).
    { rewrite head_lookup, Hlook, Hcur. repeat case_decide; (done || lia). }
    split; [done|].
    destruct (MultiFacts.multi_heuristic_inv _ _ _ Hkeys) as (st' & Hst' & Hinv).
    rewrite Hst in Hst'. injection Hst' as <-.
    rewrite (MultiInv.inv_changes _ _ _ Hinv), Hhead.
    repeat case_decide; (done || lia).
Qed.

Lemma multi_heuristic_report_witness :
  ∃ st,
    Multi.heuristic ["A"; "B"]%string
      {["A"%string := 0; "B"%string := 1]}
      {["A"%string := 1; "B"%string := 0]} = inr st ∧
    ∃ w, ({["A"%string := 0; "B"%string := 1]} : gmap string Z) !! "A"%string
           = Some w ∧
         Multi.changes st =
           switches (Multi.result st) + (if decide (0 < w) then 0 else 1).
Proof.
  assert (Hkeys : ∀ t, t ∈ ["A"; "B"]%string →
            is_Some (({["A"%string := 0; "B"%string := 1]} : gmap string Z) !! t) ∧
            is_Some (({["A"%string := 1; "B"%string := 0]} : gmap string Z) !! t)).
  { apply AB_keys; [repeat constructor; tauto|..]; vm_compute; by eexists. }
  destruct (MultiFacts.multi_heuristic_inv _ _ _ Hkeys) as (st & Hst & _).
  destruct (multi_heuristic_report _ _ _ st Hkeys Hst) as (w & Hw & _ & Hchg).
  exists st. split; [exact Hst|]. exists w. split; [exact Hw | exact Hchg].
Defined.

(** ** The two passes compared *)

Lemma passes_agree_run (ones : gmap string Z) rest : ∀ pre bst mst,
  (∀ t, t ∈ rest → ones !! t = Some 1) →
  BinaryInv.inv pre bst →
  MultiInv.inv (Multi.demand_of ones ones) pre mst →
  Binary.result bst = Multi.result mst →
  Binary.changes bst = Multi.changes mst →
  ∃ mst',
    Multi.run mst rest = inr mst' ∧
    Multi.result mst' = Binary.result (Binary.run bst rest) ∧
    Multi.changes mst' = Binary.changes (Binary.run bst rest) ∧
    Multi.current_color mst' = Binary.current_color (Binary.run bst rest).
Proof.
  induction rest as [|car rest IH]; intros pre bst mst Hones Hb Hm Hres Hchg.
  - exists mst. split; [done|]. split; [done|]. split; [done|].
    cbn. rewrite (MultiInv.inv_current _ _ _ Hm), (BinaryInv.inv_current _ _ Hb).
    by rewrite Hres.
  - assert (Hone : ones !! car = Some 1) by (apply Hones; left).
    assert (Hcur : Binary.current_color bst = Multi.current_color mst).
    { rewrite (MultiInv.inv_current _ _ _ Hm), (BinaryInv.inv_current _ _ Hb).
      by rewrite Hres. }
    assert (Hdem : ∀ c, Multi.demand_of ones ones c !! car = Some 1)
      by (intros []; done).
    destruct (MultiFacts.multi_inv_step _ pre mst car Hm)
      as (mst1 & v & Hstep & Hm1 & Hv & Hcur1 & Hres1);
      [rewrite Hdem; by eexists..|].
    pose proof (MultiInv.inv_colors _ _ _ Hm (Multi.current_color mst) car) as Hv'.
    rewrite Hv, Hdem in Hv'. cbn in Hv'. injection Hv' as ->.
    pose proof (BinaryInv.inv_colors _ _ Hb car (Binary.current_color bst)) as Hin.
    rewrite Hcur, Hres in Hin.
    pose proof (painted_nonneg pre (Multi.result mst) car (Multi.current_color mst)).
    destruct (binary_step_spec bst car) as (Hbres & Hbcur & Hbchg).
    rewrite Hcur in Hbcur, Hbchg.
    assert (Hsame : Binary.current_color (Binary.step bst car)
                    = Multi.current_color mst1 ∧
                    Binary.changes (Binary.step bst car) = Multi.changes mst1).
    { rewrite Hbcur, Hbchg, Hcur1.
      destruct (decide (1 - painted pre (Multi.result mst) car
                              (Multi.current_color mst) > 0)) as [Hpos | Hpos].
      - rewrite (MultiFacts.multi_step_keep mst car _ Hv Hpos) in Hstep.
        injection Hstep as <-. cbn.
        rewrite !decide_False by (intros Hyes%Hin; lia). split; [done|lia].
      - pose proof (MultiInv.inv_colors _ _ _ Hm
                      (flip (Multi.current_color mst)) car) as Hfl.
        rewrite Hdem in Hfl. cbn in Hfl.
        rewrite (MultiFacts.multi_step_flip mst car _ _ Hv Hpos Hfl) in Hstep.
        injection Hstep as <-. cbn.
        rewrite !decide_True by (apply Hin; lia). split; [done|lia]. }
    destruct Hsame as [Hcur' Hchg'].
    destruct (IH (pre ++ [car]) (Binary.step bst car) mst1)
      as (mst' & Hrun & Hr & Hc & Hcc).
    + intros t Ht. apply Hones. by right.
    + by apply BinaryFacts.binary_inv_step.
    + done.
    + by rewrite Hbres, Hres1, Hres, Hcur'.
    + done.
    + exists mst'. cbn [Multi.run Binary.run foldl]. rewrite Hstep. cbn.
      done.
Qed.

(** X15. The set-based pass is the counter pass with one white and one
    black car demanded of every type: on every sequence over [types], with
    both demands 1 for each type of [types], the counter pass raises
    nothing and returns the same colouring, the same [changes] and the same
    final colour as the set-based pass (however often a type occurs). *)
Theorem binary_is_multi_with_ones (types : gset string)
    (sequence : list string) :
  types_of sequence ⊆ types →
  ∃ st,
    Multi.heuristic sequence (gset_to_gmap 1 types) (gset_to_gmap 1 types)
      = inr st ∧
    Multi.result st = Binary.result (Binary.heuristic sequence) ∧
    Multi.changes st = Binary.changes (Binary.heuristic sequence) ∧
    Multi.current_color st = Binary.current_color (Binary.heuristic sequence).
Proof.
  intros Hsub.
  apply (passes_agree_run (gset_to_gmap 1 types) sequence [] Binary.init
           (Multi.init (gset_to_gmap 1 types) (gset_to_gmap 1 types))).
  - intros t Ht. apply lookup_gset_to_gmap_Some. split; [|done].
    apply Hsub. by apply elem_of_list_to_set.
  - apply BinaryFacts.binary_inv_init.
  - apply MultiFacts.multi_inv_init.
  - done.
  - done.
Qed.

Lemma binary_is_multi_with_ones_witness :
  ∃ st,
    Multi.heuristic ["A"; "A"; "A"]%string
      (gset_to_gmap 1 {["A"%string]}) (gset_to_gmap 1 {["A"%string]})
      = inr st ∧
    Multi.result st = Binary.result (Binary.heuristic ["A"; "A"; "A"]%string).
Proof.
  destruct (binary_is_multi_with_ones {["A"%string]} ["A"; "A"; "A"]%string)
    as (st & Hst & Hres & _).
  - apply (bool_decide_unpack _). vm_compute. exact I.
  - exists st. split; [exact Hst | exact Hres].
Defined.

(** ** The emitted coefficients determine the upper triangle *)

(** X16. The emitted dictionary depends on the upper triangle of the
    matrix and on nothing else: two matrices yield the same [final_qubo]
    exactly when they agree on every entry [(i, j)] with [i ≤ j < n];
    entries below the diagonal are never read. *)
Theorem final_qubo_upper_triangle {V : Type} (Q Q' : nat → nat → V) (n : nat) :
  final_qubo Q n = final_qubo Q' n ↔
  ∀ i j, (i ≤ j < n)%nat → Q i j = Q' i j.
Proof.
  split.
  - intros Heq i j Hij.
    pose proof (final_qubo_lookup Q n i j Hij) as H1.
    pose proof (final_qubo_lookup Q' n i j Hij) as H2.
    rewrite Heq in H1. congruence.
  - intros Hagree. apply map_eq. intros k.
    destruct (final_qubo Q n !! k) as [v|] eqn:Hv.
    + apply final_qubo_lookup_Some in Hv as (r & c & Hrc & -> & ->).
      rewrite final_qubo_lookup by done. by rewrite Hagree.
    + destruct (final_qubo Q' n !! k) as [v'|] eqn:Hv'; [|done].
      apply final_qubo_lookup_Some in Hv' as (r & c & Hrc & -> & ->).
      by rewrite final_qubo_lookup in Hv.
Qed.

(** ** Display of a coloured sequence *)

Lemma loop_ext body1 body2 sequence : ∀ i,
  (∀ k char, body1 k char = body2 k char) →
  Display.loop body1 i sequence = Display.loop body2 i sequence.
Proof.
  induction sequence as [|char rest IH]; intros i Hext; [done|].
  cbn [Display.loop]. rewrite Hext, (IH (S i) Hext). done.
Qed.

Lemma heuristic_loop_ok sequence : ∀ i labels,
  (i + length sequence ≤ length labels)%nat →
  Display.loop (Display.heuristic_body (Display.Labels labels)) i sequence
  = inr (rendered sequence (drop i labels)).
Proof.
  induction sequence as [|char rest IH]; intros i labels Hlen; [done|].
  cbn [Display.loop length] in *.
  destruct (labels !! i) as [c|] eqn:Hc;
    [|apply lookup_ge_None in Hc; lia].
  rewrite IH by lia. rewrite (drop_S _ _ _ Hc).
  unfold Display.heuristic_body, Display.data_at. rewrite Hc.
  by destruct c.
Qed.

Lemma heuristic_loop_short sequence : ∀ i labels,
  (i ≤ length labels < i + length sequence)%nat →
  Display.loop (Display.heuristic_body (Display.Labels labels)) i sequence
  = inl (Display.LookupError (length labels)).
Proof.
  induction sequence as [|char rest IH]; intros i labels Hlen;
    [cbn in Hlen; lia|].
  cbn [Display.loop length] in *.
  destruct (labels !! i) as [c|] eqn:Hc.
  - apply lookup_lt_Some in Hc as Hlt.
    unfold Display.heuristic_body at 1, Display.data_at. rewrite Hc.
    rewrite IH by lia. by destruct c.
  - pose proof (proj1 (lookup_ge_None _ _) Hc) as Hge.
    unfold Display.heuristic_body at 1, Display.data_at. rewrite Hc.
    do 2 f_equal. lia.
Qed.

(** X17. The heuristic display needs a label for every car: if
    [color_data] has at least as many labels as the sequence has cars, the
    function prints the cars in order, each preceded by the red code when
    its label is white and by the blue code otherwise, followed by the
    reset code (labels beyond the sequence are ignored); if it has fewer,
    the function raises at the index of the first missing label and
    prints nothing. *)
Theorem display_heuristic_labels (sequence : list string)
    (labels : list color) :
  ((length sequence ≤ length labels)%nat →
     Display.display_colored_sequence "heuristic" sequence
       (Display.Labels labels)
     = inr (printed (rendered sequence labels ++ [Display.RESET]))) ∧
  ((length labels < length sequence)%nat →
     Display.display_colored_sequence "heuristic" sequence
       (Display.Labels labels)
     = inl (Display.LookupError (length labels))).
Proof.
  unfold Display.display_colored_sequence, Display.colored_output.
  rewrite decide_False by (by vm_compute).
  rewrite decide_True by (by vm_compute).
  split; intros Hlen.
  - rewrite heuristic_loop_ok by (cbn; lia). done.
  - rewrite heuristic_loop_short by lia. done.
Qed.

Lemma level_inj c c' : level c = level c' → c = c'.
Proof. by destruct c, c'. Qed.

(** X18. The optimisation display names the colours by the first car: on
    the levels of a colouring it prints (or raises) exactly what the
    heuristic display prints for that colouring when its first label is
    white, and what the heuristic display prints for the colouring with
    the two colours exchanged when its first label is black; so the first
    car is always shown red. *)
Theorem display_optimization_as_heuristic (sequence : list string)
    (c0 : color) (coloring : list color) :
  Display.display_colored_sequence "optimization" sequence
    (Display.Levels (level <$> c0 :: coloring))
  = Display.display_colored_sequence "heuristic" sequence
      (Display.Labels (match c0 with
                       | white => c0 :: coloring
                       | black => flip <$> c0 :: coloring
                       end)).
Proof.
  unfold Display.display_colored_sequence, Display.colored_output.
  rewrite (decide_True (P := Display.lower "optimization" = _))
    by (by vm_compute).
  rewrite (decide_False (P := Display.lower "heuristic" = "optimization"%string))
    by (by vm_compute).
  rewrite (decide_True (P := Display.lower "heuristic" = "heuristic"%string))
    by (by vm_compute).
  unfold Display.color_map. cbn [Display.data_at fmap list_fmap lookup list_lookup].
  erewrite loop_ext; [reflexivity|].
  intros k char.
  unfold Display.optimization_body, Display.heuristic_body, Display.data_at.
  destruct c0.
  - rewrite <- fmap_cons, list_lookup_fmap.
    destruct ((white :: coloring) !! k) as [[]|]; done.
  - rewrite <- !fmap_cons, !list_lookup_fmap.
    destruct ((black :: coloring) !! k) as [[]|]; done.
Qed.

(** X19. The optimisation display does not tell an assignment from its
    colour-swapped twin: on binary levels, exchanging 0 and 1 everywhere
    leaves the printed line (or the exception) unchanged. *)
Theorem display_optimization_swap (sequence : list string) (X : list Z) :
  Forall (λ x, x = 0 ∨ x = 1) X →
  Display.display_colored_sequence "optimization" sequence (Display.Levels X)
  = Display.display_colored_sequence "optimization" sequence
      (Display.Levels (swap_levels X)).
Proof.
  intros HX.
  unfold Display.display_colored_sequence, Display.colored_output.
  rewrite !(decide_True (P := Display.lower "optimization" = _))
    by (by vm_compute).
  destruct X as [|x0 X]; [done|].
  unfold Display.color_map, swap_levels.
  cbn [Display.data_at fmap list_fmap lookup list_lookup].
  erewrite loop_ext; [reflexivity|].
  intros k char.
  unfold Display.optimization_body, Display.data_at.
  rewrite <- fmap_cons, list_lookup_fmap.
  destruct ((x0 :: X) !! k) as [v|] eqn:Hv; [|done]. cbn.
  pose proof (proj1 (Forall_lookup _ _) HX _ _ Hv) as Hbin. cbn in Hbin.
  apply Forall_cons in HX as [Hx0 _].
  destruct Hx0 as [-> | ->], Hbin as [-> | ->]; done.
Qed.

Lemma display_optimization_swap_witness :
  Display.display_colored_sequence "optimization" ["A"; "B"; "A"]%string
    (Display.Levels [0; 1; 1])
  = Display.display_colored_sequence "optimization" ["A"; "B"; "A"]%string
      (Display.Levels (swap_levels [0; 1; 1])).
Proof.
  apply display_optimization_swap. repeat constructor; lia.
Defined.

(** X20. Edge behaviour of the display. With the optimisation method and
    no level at all the function raises on [color_data[0]] before looking
    at the sequence, also when the sequence is empty, whereas the heuristic
    method prints just the reset code for the empty sequence; with the
    optimisation method and labels instead of levels it raises a type
    error; and with any other method name it prints just the reset code,
    whatever the sequence and the data. *)
Theorem display_edge_cases (method : string) (sequence : list string)
    (d : Display.color_data) (labels : list color) :
  Display.display_colored_sequence "optimization" sequence (Display.Levels [])
    = inl (Display.LookupError 0) ∧
  Display.display_colored_sequence "heuristic" [] d
    = inr (printed [Display.RESET]) ∧
  (labels ≠ [] →
     Display.display_colored_sequence "optimization" sequence
       (Display.Labels labels) = inl Display.TypeError) ∧
  (Display.lower method ≠ "optimization"%string →
   Display.lower method ≠ "heuristic"%string →
     Display.display_colored_sequence method sequence d
     = inr (printed [Display.RESET])).
Proof.
  split; [done|]. split; [done|]. split.
  - intros Hne. destruct labels as [|c labels]; done.
  - intros H1 H2.
    unfold Display.display_colored_sequence, Display.colored_output.
    by rewrite !decide_False.
Qed.

(** The method name is compared without regard to case. *)
Example display_method_case :
  Display.display_colored_sequence "Optimization" ["A"; "B"]%string
    (Display.Levels [1; 0])
  = Display.display_colored_sequence "OPTIMIZATION" ["A"; "B"]%string
      (Display.Levels [1; 0]).
Proof. vm_compute. reflexivity. Qed.
